(** * SPFPM: the Simple Python Fixed-Point Module (FixedPoint.py)

    A shallow embedding of the classes [FXfamily] and [FXnum] and of their
    integer arithmetic, followed by the properties of the family
    conversion, the overflow validator, the precision augmentation, the
    arithmetic operators, the two's-complement decoder and the family
    comparison.

    Python integers are unbounded, so they are values of [Z]; [<<], [>>],
    [|] and [//] are [Z.shiftl], [Z.shiftr], [Z.lor] and [Z.div] (which
    rounds toward minus infinity like Python's), guarded by the faults that
    Python raises for a negative shift count or a zero divisor.  Exceptions
    are the [Raise] results of a small error monad.  Floating-point
    operands are outside the model. *)

From Stdlib Require Import ZArith QArith Qround Bool String List Lia.
From Stdlib Require Import DecimalString HexadecimalString.
From Equations Require Import Equations.

Local Open Scope Z_scope.

(** ** Exceptions and the error monad *)

Inductive exn : Type :=
| FXdomainError      (* argument of a function is unsuitable *)
| FXoverflowError    (* value has overflowed its most-significant bit *)
| FXfamilyError      (* families mismatched, or family unsuitable *)
| FXbrokenError      (* internal error *)
| ZeroDivisionError  (* host: integer division by zero *)
| ValueError         (* host: negative shift count *)
| TypeError          (* host: operand of the wrong type, e.g. None *)
| AttributeError     (* host: attribute lookup failed *)
| NameError.         (* host: name is not defined *)

Inductive result (A : Type) : Type :=
| Ok (a : A)
| Raise (e : exn).
Arguments Ok {A} a.
Arguments Raise {A} e.

Definition bind {A B : Type} (c : result A) (k : A -> result B) : result B :=
  match c with
  | Ok a => k a
  | Raise e => Raise e
  end.

Notation "x <- c ;; k" := (bind c (fun x => k))
  (at level 61, c at next level, right associativity).

Definition exn_eqb (a b : exn) : bool :=
  match a, b with
  | FXdomainError, FXdomainError | FXoverflowError, FXoverflowError
  | FXfamilyError, FXfamilyError | FXbrokenError, FXbrokenError
  | ZeroDivisionError, ZeroDivisionError | ValueError, ValueError
  | TypeError, TypeError | AttributeError, AttributeError
  | NameError, NameError => true
  | _, _ => false
  end.

(** [try: c except e: h] *)
Definition try_except {A : Type} (c : result A) (e : exn) (h : result A)
  : result A :=
  match c with
  | Ok a => Ok a
  | Raise e' => if exn_eqb e' e then h else Raise e'
  end.

(** [try: c except: h], the bare handler that catches everything. *)
Definition try_except_all {A : Type} (c : result A) (h : result A)
  : result A :=
  match c with
  | Ok a => Ok a
  | Raise _ => h
  end.

(** ** Host integer operations *)

(** [a << n]: a negative shift count is a ValueError. *)
Definition py_shl (a n : Z) : result Z :=
  if n <? 0 then Raise ValueError else Ok (Z.shiftl a n).

(** [a >> n]: arithmetic shift, a negative shift count is a ValueError. *)
Definition py_shr (a n : Z) : result Z :=
  if n <? 0 then Raise ValueError else Ok (Z.shiftr a n).

(** [a // b]: floor division, a zero divisor is a ZeroDivisionError. *)
Definition py_floordiv (a b : Z) : result Z :=
  if b =? 0 then Raise ZeroDivisionError else Ok (a / b).

(** An integer operand that may be [None]: [a + None] and [a << None] are
    TypeErrors. *)
Definition py_add_opt (a : Z) (b : option Z) : result Z :=
  match b with
  | Some k => Ok (a + k)
  | None => Raise TypeError
  end.

Definition py_shl_opt (a : Z) (b : option Z) : result Z :=
  match b with
  | Some k => py_shl a k
  | None => Raise TypeError
  end.

(** ** class FXfamily *)

(** [thresh] is the threshold captured by the [validate] closure that
    [__init__] builds; it is [None] when [__init__] installed the
    validator that does nothing. *)
Record FXfamily : Type := mkFXfamily {
  fraction_bits : Z;            (* bits to right of binary point *)
  integer_bits : option Z;      (* bits to left of binary point, or None *)
  scale : Z;
  _roundup : Z;
  thresh : option Z
}.

(** [FXfamily.__init__(self, n_bits=64, n_intbits=None)] *)
Definition FXfamily_init (n_bits : Z) (n_intbits : option Z)
  : result FXfamily :=
  scale <- py_shl 1 n_bits ;;
  roundup <- py_shl 1 (n_bits - 1) ;;
  let thresh :=
    match (s <- py_add_opt n_bits n_intbits ;; py_shl 1 (s - 1)) with
    | Ok t => Some t
    | Raise _ => None
    end in
  Ok (mkFXfamily n_bits n_intbits scale roundup thresh).

(** The closure [validate(scaledval)] stored in the family. *)
Definition validate (self : FXfamily) (scaledval : Z) : result unit :=
  match thresh self with
  | Some thresh =>
      if (scaledval >=? thresh) || (scaledval <? - thresh)
      then Raise FXoverflowError
      else Ok tt
  | None => Ok tt
  end.

(** [FXfamily.convert(self, other, other_val)] *)
Definition convert (self other : FXfamily) (other_val : Z) : Z :=
  let bit_inc := fraction_bits self - fraction_bits other in
  if bit_inc =? 0 then other_val
  else if bit_inc >? 0 then
    let new_val := Z.shiftl other_val bit_inc in
    if other_val >? 0
    then Z.lor new_val (Z.shiftl 1 (bit_inc - 1))
    else Z.lor new_val (Z.shiftl 1 (bit_inc - 1) - 1)
  else Z.shiftr other_val (- bit_inc).

(** The loop of [FXfamily.augment]:
    [while nb > 0: augbits += 1; nb >>= 1]. *)
Equations? augment_loop (nb augbits : Z) : Z by wf (Z.to_nat nb) lt :=
  augment_loop nb augbits with Z_lt_dec 0 nb => {
    | left _ := augment_loop (Z.shiftr nb 1) (augbits + 1);
    | right _ := augbits }.
Proof.
  rewrite Z.shiftr_div_pow2 by lia. change (2 ^ 1) with 2.
  assert (nb / 2 < nb) by (apply Z.div_lt; lia).
  assert (0 <= nb / 2) by (apply Z.div_pos; lia).
  lia.
Qed.

(** [FXfamily.augment(self, opcount=None)] *)
Definition augment (self : FXfamily) (opcount : option Z) : result FXfamily :=
  let nb := match opcount with
            | Some n => n
            | None => fraction_bits self
            end in
  let augbits := augment_loop nb 4 in
  FXfamily_init (fraction_bits self + augbits) None.

(** [_defaultFamily = FXfamily()] *)
Definition _defaultFamily : result FXfamily := FXfamily_init 64 None.

(** *** Family comparison

    [__eq__] and [__ne__] read two attributes of an arbitrary object.  An
    object is modelled by its attribute lookup; the attributes that the
    comparisons read hold an integer or [None]. *)

Inductive pyattr : Type :=
| AInt (z : Z)
| ANone.

Definition pyobj : Type := string -> option pyattr.

(** [o.name]: a missing attribute is an AttributeError. *)
Definition getattr (o : pyobj) (name : string) : result pyattr :=
  match o name with
  | Some v => Ok v
  | None => Raise AttributeError
  end.

(** [a == b] on attribute values. *)
Definition pyattr_eqb (a b : pyattr) : bool :=
  match a, b with
  | AInt x, AInt y => x =? y
  | ANone, ANone => true
  | _, _ => false
  end.

Definition attr_of_opt (o : option Z) : pyattr :=
  match o with
  | Some z => AInt z
  | None => ANone
  end.

(** An [FXfamily] seen as an object, with the attributes that the
    comparisons read. *)
Definition obj_of_family (f : FXfamily) : pyobj :=
  fun name =>
    if String.eqb name "fraction_bits" then Some (AInt (fraction_bits f))
    else if String.eqb name "integer_bits"
         then Some (attr_of_opt (integer_bits f))
    else None.

(** Evaluation of a name that is bound nowhere in the module: the
    handlers of [__eq__] and [__ne__] return [false] and [true], which
    are not Python names. *)
Definition undefined_name {A : Type} (name : string) : result A :=
  Raise NameError.

(** [FXfamily.__eq__(self, other)]; [and] evaluates its right operand
    only when the left one is true. *)
Definition FXfamily_eq (self : FXfamily) (other : pyobj) : result bool :=
  try_except
    (ofb <- getattr other "fraction_bits" ;;
     if pyattr_eqb (AInt (fraction_bits self)) ofb
     then (oib <- getattr other "integer_bits" ;;
           Ok (pyattr_eqb (attr_of_opt (integer_bits self)) oib))
     else Ok false)
    AttributeError
    (undefined_name "false").

(** [FXfamily.__ne__(self, other)]; [or] evaluates its right operand
    only when the left one is false. *)
Definition FXfamily_ne (self : FXfamily) (other : pyobj) : result bool :=
  try_except
    (ofb <- getattr other "fraction_bits" ;;
     if negb (pyattr_eqb (AInt (fraction_bits self)) ofb)
     then Ok true
     else (oib <- getattr other "integer_bits" ;;
           Ok (negb (pyattr_eqb (attr_of_opt (integer_bits self)) oib))))
    AttributeError
    (undefined_name "true").

(** ** class FXnum *)

Record FXnum : Type := mkFXnum {
  family : FXfamily;
  scaledval : Z
}.

(** The exact value of a number is [scaledval / family.scale]. *)
Definition value (x : FXnum) : Q :=
  (inject_Z (scaledval x) / inject_Z (scale (family x)))%Q.

(** An operand of a constructor or of a binary operator: a Python integer
    or an [FXnum]. *)
Inductive pyval : Type :=
| PyInt (n : Z)
| PyFX (x : FXnum).

(** [FXnum.__init__(self, val=0, family=_defaultFamily, **kwargs)], with
    the keyword argument [scaled_value] as an option.  An integer has no
    attribute [family], which sends it to the handler; there
    [int(round(val * family.scale))] is [val * family.scale]. *)
Definition FXnum_init (val : pyval) (family : FXfamily)
    (scaled_value : option Z) : result FXnum :=
  let scaledval :=
    match val with
    | PyFX (mkFXnum val_family val_scaledval) =>
        convert family val_family val_scaledval
    | PyInt n =>
        match scaled_value with
        | Some sv => sv
        | None => n * scale family
        end
    end in
  _ <- validate family scaledval ;;
  Ok (mkFXnum family scaledval).

(** [FXnum._rawbuild(cls, fam, sv)] *)
Definition _rawbuild (fam : FXfamily) (sv : Z) : result FXnum :=
  _ <- validate fam sv ;;
  Ok (mkFXnum fam sv).

(** [FXfamily.__call__], [FXfamily.unity] and [FXfamily.zero] *)
Definition FXfamily_call (self : FXfamily) (val : pyval) : result FXnum :=
  FXnum_init val self None.

Definition unity (self : FXfamily) : result FXnum :=
  FXnum_init (PyInt 1) self None.

Definition zero (self : FXfamily) : result FXnum :=
  FXnum_init (PyInt 0) self None.

(** [FXfamily.from2c(self, n, n_intbits=None)] *)
Definition from2c (self : FXfamily) (n : Z) (n_intbits : option Z)
  : result FXnum :=
  m <- try_except_all
         (py_shl_opt (scale self)
            (match n_intbits with
             | Some k => Some k
             | None => integer_bits self
             end))
         (Raise FXfamilyError) ;;
  if (n <? 0) || (n >=? m) then Raise FXdomainError
  else
    let scaledval := if n <? Z.shiftr m 1 then n else n - m in
    _rawbuild self scaledval.

(** [FXnum._CastOrFail_(self, other)] *)
Definition _CastOrFail_ (self : FXnum) (other : pyval) : result FXnum :=
  match other with
  | PyFX o =>
      ne <- FXfamily_ne (family self) (obj_of_family (family o)) ;;
      if ne then Raise FXfamilyError else Ok o
  | PyInt _ => FXnum_init other (family self) None
  end.

(** Unary operations *)
Definition FXnum_neg (self : FXnum) : result FXnum :=
  _rawbuild (family self) (- scaledval self).

Definition FXnum_abs (self : FXnum) : result FXnum :=
  if scaledval self <? 0 then FXnum_neg self else Ok self.

Definition FXnum_pos (self : FXnum) : result FXnum := Ok self.

(** [FXnum.__eq__(self, other)] *)
Definition FXnum_eq (self : FXnum) (other : pyval) : result bool :=
  other <- _CastOrFail_ self other ;;
  if scaledval self =? scaledval other
  then FXfamily_eq (family self) (obj_of_family (family other))
  else Ok false.

(** Arithmetic combinations *)
Definition FXnum_add (self : FXnum) (other : pyval) : result FXnum :=
  other <- _CastOrFail_ self other ;;
  _rawbuild (family self) (scaledval self + scaledval other).

Definition FXnum_sub (self : FXnum) (other : pyval) : result FXnum :=
  other <- _CastOrFail_ self other ;;
  _rawbuild (family self) (scaledval self - scaledval other).

Definition FXnum_mul (self : FXnum) (other : pyval) : result FXnum :=
  other <- _CastOrFail_ self other ;;
  q <- py_floordiv (scaledval self * scaledval other
                    + _roundup (family self))
                   (scale (family self)) ;;
  _rawbuild (family self) q.

Definition FXnum_lshift (self : FXnum) (shift : Z) : result FXnum :=
  v <- py_shl (scaledval self) shift ;;
  _rawbuild (family self) v.

Definition FXnum_rshift (self : FXnum) (shift : Z) : result FXnum :=
  v <- py_shr (scaledval self) shift ;;
  _rawbuild (family self) v.

Definition FXnum_truediv (self : FXnum) (other : pyval) : result FXnum :=
  other <- _CastOrFail_ self other ;;
  q <- py_floordiv (scaledval self * scale (family self)
                    + _roundup (family self))
                   (scaledval other) ;;
  _rawbuild (family self) q.

(** The reflected operators, reached when the left operand is a plain
    integer. *)
Definition FXnum_radd (self : FXnum) (other : pyval) : result FXnum :=
  o <- FXnum_init other (family self) None ;; FXnum_add o (PyFX self).

Definition FXnum_rsub (self : FXnum) (other : pyval) : result FXnum :=
  o <- FXnum_init other (family self) None ;; FXnum_sub o (PyFX self).

Definition FXnum_rmul (self : FXnum) (other : pyval) : result FXnum :=
  o <- FXnum_init other (family self) None ;; FXnum_mul o (PyFX self).

Definition FXnum_rtruediv (self : FXnum) (other : pyval) : result FXnum :=
  o <- FXnum_init other (family self) None ;; FXnum_truediv o (PyFX self).

(** ** Sample families and numbers *)

Definition fam4 : FXfamily := mkFXfamily 4 None 16 8 None.
Definition fam8 : FXfamily := mkFXfamily 8 None 256 128 None.
Definition fam4_1 : FXfamily := mkFXfamily 4 (Some 1) 16 8 (Some 16).
Definition fam4_2 : FXfamily := mkFXfamily 4 (Some 2) 16 8 (Some 32).
Definition fam4_4 : FXfamily := mkFXfamily 4 (Some 4) 16 8 (Some 128).
Definition fam8_4 : FXfamily := mkFXfamily 8 (Some 4) 256 128 (Some 2048).

(** The threshold that [FXfamily.__init__] gives to the validator. *)
Definition thresh_of (n_bits : Z) (n_intbits : option Z) : option Z :=
  match n_intbits with
  | Some k => if n_bits + k - 1 <? 0 then None else Some (2 ^ (n_bits + k - 1))
  | None => None
  end.

(** A value is in the range of a family: the validator lets it pass. *)
Definition in_range (fam : FXfamily) (sv : Z) : Prop :=
  match thresh fam with
  | Some t => - t <= sv < t
  | None => True
  end.

(** The numbers of a family [fam] that the constructors, the decoder and
    the arithmetic operators hand out.  [__abs__] and [__pos__] may return
    their operand itself, which then has to be such a number already. *)
Inductive produced (fam : FXfamily) : FXnum -> Prop :=
| produced_init (val : pyval) (kw : option Z) (r : FXnum) :
    FXnum_init val fam kw = Ok r -> produced fam r
| produced_rawbuild (sv : Z) (r : FXnum) :
    _rawbuild fam sv = Ok r -> produced fam r
| produced_from2c (n : Z) (k : option Z) (r : FXnum) :
    from2c fam n k = Ok r -> produced fam r
| produced_neg (x r : FXnum) :
    family x = fam -> FXnum_neg x = Ok r -> produced fam r
| produced_abs (x r : FXnum) :
    produced fam x -> FXnum_abs x = Ok r -> produced fam r
| produced_pos (x r : FXnum) :
    produced fam x -> FXnum_pos x = Ok r -> produced fam r
| produced_add (x : FXnum) (o : pyval) (r : FXnum) :
    family x = fam -> FXnum_add x o = Ok r -> produced fam r
| produced_sub (x : FXnum) (o : pyval) (r : FXnum) :
    family x = fam -> FXnum_sub x o = Ok r -> produced fam r
| produced_mul (x : FXnum) (o : pyval) (r : FXnum) :
    family x = fam -> FXnum_mul x o = Ok r -> produced fam r
| produced_truediv (x : FXnum) (o : pyval) (r : FXnum) :
    family x = fam -> FXnum_truediv x o = Ok r -> produced fam r
| produced_lshift (x : FXnum) (k : Z) (r : FXnum) :
    family x = fam -> FXnum_lshift x k = Ok r -> produced fam r
| produced_rshift (x : FXnum) (k : Z) (r : FXnum) :
    family x = fam -> FXnum_rshift x k = Ok r -> produced fam r
| produced_radd (x : FXnum) (o : pyval) (r : FXnum) :
    family x = fam -> FXnum_radd x o = Ok r -> produced fam r
| produced_rsub (x : FXnum) (o : pyval) (r : FXnum) :
    family x = fam -> FXnum_rsub x o = Ok r -> produced fam r
| produced_rmul (x : FXnum) (o : pyval) (r : FXnum) :
    family x = fam -> FXnum_rmul x o = Ok r -> produced fam r
| produced_rtruediv (x : FXnum) (o : pyval) (r : FXnum) :
    family x = fam -> FXnum_rtruediv x o = Ok r -> produced fam r.

(** Rounding of a rational to the nearest integer, halves upwards; this
    is the rounding that the description of the division names, not a
    function of the module. *)
Definition round_half_up (q : Q) : Z := Qfloor (q + (1 # 2))%Q.

(** ** Further methods of FXnum and FXfamily *)

(** [FXfamily.resolution] *)
Definition resolution (self : FXfamily) : Z := fraction_bits self.

(** [FXnum.__int__(self)] *)
Definition FXnum_int (self : FXnum) : result Z :=
  if scaledval self >=? 0
  then py_floordiv (scaledval self) (scale (family self))
  else py_floordiv (scaledval self + scale (family self) - 1)
                   (scale (family self)).

(** The comparisons; [__ne__] and the order tests compare the scaled
    values only, after [_CastOrFail_]. *)
Definition FXnum_ne (self : FXnum) (other : pyval) : result bool :=
  other <- _CastOrFail_ self other ;;
  Ok (negb (scaledval self =? scaledval other)).

Definition FXnum_ge (self : FXnum) (other : pyval) : result bool :=
  other <- _CastOrFail_ self other ;;
  Ok (scaledval self >=? scaledval other).

Definition FXnum_gt (self : FXnum) (other : pyval) : result bool :=
  other <- _CastOrFail_ self other ;;
  Ok (scaledval self >? scaledval other).

Definition FXnum_le (self : FXnum) (other : pyval) : result bool :=
  other <- _CastOrFail_ self other ;;
  Ok (scaledval self <=? scaledval other).

Definition FXnum_lt (self : FXnum) (other : pyval) : result bool :=
  other <- _CastOrFail_ self other ;;
  Ok (scaledval self <? scaledval other).

(** [FXnum.__bool__(self)] *)
Definition FXnum_bool (self : FXnum) : bool :=
  negb (scaledval self =? 0).

(** *** Loops that need not end

    A [while] loop whose end the loop itself does not show runs on
    fuel: [None] says that the fuel ran out before the loop ended. *)
Definition steps (A : Type) : Type := option (result A).

Definition finished {A : Type} (r : result A) : steps A := Some r.

Definition bind_steps {A B : Type} (c : steps A) (k : A -> steps B)
  : steps B :=
  match c with
  | Some (Ok a) => k a
  | Some (Raise e) => Some (Raise e)
  | None => None
  end.

(** [while intPart >= (1 << (intDigits * logBase)): intDigits += 1] *)
Fixpoint intDigits_loop_nonneg (fuel : nat) (intPart logBase intDigits : Z)
  : steps Z :=
  match fuel with
  | O => None
  | S fuel' =>
      match py_shl 1 (intDigits * logBase) with
      | Raise e => Some (Raise e)
      | Ok bound =>
          if intPart >=? bound
          then intDigits_loop_nonneg fuel' intPart logBase (intDigits + 1)
          else Some (Ok intDigits)
      end
  end.

(** [while (1 << (intDigits * logBase - 1)) + intPart < 0: intDigits += 1] *)
Fixpoint intDigits_loop_neg (fuel : nat) (intPart logBase intDigits : Z)
  : steps Z :=
  match fuel with
  | O => None
  | S fuel' =>
      match py_shl 1 (intDigits * logBase - 1) with
      | Raise e => Some (Raise e)
      | Ok bound =>
          if bound + intPart <? 0
          then intDigits_loop_neg fuel' intPart logBase (intDigits + 1)
          else Some (Ok intDigits)
      end
  end.

(** [FXnum._toTwosComplement(self, logBase=1)], which returns
    [(bitPattern, intDigits, fracDigits)]. *)
Definition _toTwosComplement (fuel : nat) (self : FXnum) (logBase : Z)
  : steps (Z * Z * Z) :=
  bind_steps
    (finished (py_floordiv (resolution (family self) + logBase - 1) logBase))
    (fun fracDigits =>
  let bitPattern := scaledval self in
  bind_steps
    (match integer_bits (family self) with
     | Some integer_bits =>
         finished (py_floordiv (integer_bits + logBase - 1) logBase)
     | None =>
         let intDigits := 1 in
         bind_steps
           (finished (py_shr (scaledval self) (resolution (family self))))
           (fun intPart =>
              if intPart >=? 0
              then intDigits_loop_nonneg fuel intPart logBase intDigits
              else intDigits_loop_neg fuel intPart logBase intDigits)
     end)
    (fun intDigits =>
  finished
    (bitPattern <-
       (if bitPattern <? 0
        then (top <- py_shl 1 (intDigits * logBase
                               + resolution (family self)) ;;
              Ok (bitPattern + top))
        else Ok bitPattern) ;;
     bitPattern <- py_shl bitPattern
                     (fracDigits * logBase - resolution (family self)) ;;
     Ok (bitPattern, intDigits, fracDigits)))).

(** [str(n)] of an integer. *)
Definition py_str (n : Z) : string :=
  DecimalString.NilZero.string_of_int (Z.to_int n).

(** The digit loop of [toDecimalString]:
    [while idx < precision and frac != 0], which returns [rep] (and the
    fraction that is left). *)
Equations? decimal_loop (famScale precision : Z) (rep : string)
    (frac idx : Z) : result (string * Z)
    by wf (Z.to_nat (precision - idx)) lt :=
  decimal_loop famScale precision rep frac idx with Z_lt_dec idx precision => {
    | left _ =>
        if negb (frac =? 0) then
          let frac := frac * 10 in
          match py_floordiv frac famScale with
          | Ok q =>
              let rep := (rep ++ py_str q)%string in
              let frac := frac - q * famScale in
              let idx := idx + 1 in
              decimal_loop famScale precision rep frac idx
          | Raise e => Raise e
          end
        else Ok (rep, frac);
    | right _ => Ok (rep, frac) }.
Proof. lia. Qed.

(** [FXnum.toDecimalString(self, precision, round10=False)] for a given
    number [precision] of digits.  The precision is a natural number:
    without one Python takes a floating-point estimate, and with a
    negative one [10 ** precision] is a floating-point number. *)
Definition toDecimalString (self : FXnum) (precision : N) (round10 : bool)
  : result string :=
  let famScale := scale (family self) in
  let precision := Z.of_N precision in
  let val := scaledval self in
  let rep := ""%string in
  let '(rep, val) :=
    if scaledval self <? 0 then ("-"%string, val * -1) else (rep, val) in
  val <- (if round10
          then
            let decimalScale := 10 ^ precision in
            h <- py_floordiv famScale 2 ;;
            py_floordiv (val * decimalScale + h) decimalScale
          else Ok val) ;;
  whole <- py_floordiv val famScale ;;
  let frac := val - whole * famScale in
  let rep := (rep ++ py_str whole)%string in
  if negb (frac =? 0) && (precision >? 0)
  then
    let rep := (rep ++ ".")%string in
    r <- decimal_loop famScale precision rep frac 0 ;;
    Ok (fst r)
  else Ok rep.

(** The loop of [FXnum.intpower], on fuel: it ends for every
    non-negative power, which is what [intpower] runs it with. *)
Fixpoint intpower_loop (fuel : nat) (result term : FXnum) (pwr : Z)
  : steps FXnum :=
  match fuel with
  | O => None
  | S fuel' =>
      bind_steps
        (finished (if negb (Z.land pwr 1 =? 0)
                   then FXnum_mul result (PyFX term)
                   else Ok result))
        (fun result =>
      let pwr := Z.shiftr pwr 1 in
      if pwr =? 0 then Some (Ok result)
      else
        bind_steps (finished (FXnum_mul term (PyFX term)))
          (fun term => intpower_loop fuel' result term pwr))
  end.

(** [FXnum.intpower(self, pwr)] *)
Definition intpower (fuel : nat) (self : FXnum) (pwr : Z) : steps FXnum :=
  let invert := false in
  let '(pwr, invert) := if pwr <? 0 then (pwr * -1, true) else (pwr, invert) in
  bind_steps (finished (unity (family self))) (fun result =>
  let term := self in
  bind_steps (intpower_loop fuel result term pwr) (fun result =>
  if invert
  then finished (one <- FXnum_init (PyInt 1) (family self) None ;;
                 FXnum_truediv one (PyFX result))
  else Some (Ok result))).

(** ['{:1x}'.format(v)]: the hexadecimal digits of an integer. *)
Definition format_x (v : Z) : string :=
  HexadecimalString.NilZero.string_of_int (Z.to_hex_int v).

(** An index of a slice of a sequence of length [len]: a negative index
    counts from the end, and indices are clipped to the sequence. *)
Definition py_index (len i : Z) : Z :=
  if i <? 0 then Z.max (len + i) 0 else Z.min i len.

(** [s[start:stop]], either bound possibly left out. *)
Definition py_slice (s : string) (start stop : option Z) : string :=
  let len := Z.of_nat (String.length s) in
  let a := match start with Some i => py_index len i | None => 0 end in
  let b := match stop with Some i => py_index len i | None => len end in
  substring (Z.to_nat a) (Z.to_nat (b - a)) s.

(** The loop of [toBinaryString]:
    [for dig in range(n): digits.append(format(bits & mask));
     bits >>= logBase], counted down. *)
Fixpoint binary_digits_loop (n : nat) (logBase mask : Z)
    (digits : list string) (bits : Z) : result (list string) :=
  match n with
  | O => Ok digits
  | S n' =>
      let digits := (digits ++ format_x (Z.land bits mask) :: nil)%list in
      bits <- py_shr bits logBase ;;
      binary_digits_loop n' logBase mask digits bits
  end.

(** [FXnum.toBinaryString(self, logBase=1, twosComp=True)] *)
Definition toBinaryString (fuel : nat) (self : FXnum) (logBase : Z)
    (twosComp : bool) : steps string :=
  if (logBase >? 4) || (logBase <? 1) then Some (Raise ValueError)
  else
    bind_steps
      (finished
         (if (scaledval self <? 0) && negb twosComp
          then (n <- FXnum_neg self ;; Ok (n, "-"%string))
          else Ok (self, ""%string)))
      (fun '(absSelf, prefix) =>
    bind_steps (_toTwosComplement fuel absSelf logBase)
      (fun '(bits, intDigits, fracDigits) =>
    finished
      (mask <- (top <- py_shl 1 logBase ;; Ok (top - 1)) ;;
       digits <- binary_digits_loop (Z.to_nat (intDigits + fracDigits))
                   logBase mask nil bits ;;
       let digits := String.concat "" (rev digits) in
       Ok (prefix ++ py_slice digits None (Some (- fracDigits)) ++ "."
           ++ py_slice digits (Some (- fracDigits)) None)%string))).

(** The [n] lowest digits of [v] in base [2 ^ logBase], the most
    significant first, the integer that such digits write, and the
    string that [format_x] makes of them. *)
Fixpoint base_digits (logBase : Z) (n : nat) (v : Z) : list Z :=
  match n with
  | O => nil
  | S n' =>
      (base_digits logBase n' (Z.shiftr v logBase)
       ++ Z.land v (2 ^ logBase - 1) :: nil)%list
  end.

Fixpoint base_value (logBase : Z) (ds : list Z) : Z :=
  match ds with
  | nil => 0
  | d :: ds' => d * 2 ^ (logBase * Z.of_nat (length ds'))
                + base_value logBase ds'
  end.

Definition hex_string (ds : list Z) : string :=
  String.concat "" (map format_x ds).



(** * Properties *)

(** ** The error monad and the host operations *)

Lemma bind_Ok {A B : Type} (c : result A) (k : A -> result B) (b : B) :
  bind c k = Ok b -> exists a, c = Ok a /\ k a = Ok b.
Proof.
  destruct c as [a | e]; simpl; intros H; [eauto | discriminate].
Qed.

Lemma py_shl_nonneg (a n : Z) : 0 <= n -> py_shl a n = Ok (a * 2 ^ n).
Proof.
  intros Hn. unfold py_shl.
  destruct (Z.ltb_spec n 0); [lia |].
  now rewrite Z.shiftl_mul_pow2.
Qed.

Lemma py_shl_neg (a n : Z) : n < 0 -> py_shl a n = Raise ValueError.
Proof.
  intros Hn. unfold py_shl. destruct (Z.ltb_spec n 0); [reflexivity | lia].
Qed.

Lemma py_shr_nonneg (a n : Z) : 0 <= n -> py_shr a n = Ok (a / 2 ^ n).
Proof.
  intros Hn. unfold py_shr.
  destruct (Z.ltb_spec n 0); [lia |].
  now rewrite Z.shiftr_div_pow2.
Qed.

Lemma pow2_pos (n : Z) : 0 <= n -> 0 < 2 ^ n.
Proof. intros; apply Z.pow_pos_nonneg; lia. Qed.

Lemma pow2_half (n : Z) : 1 <= n -> 2 ^ n = 2 * 2 ^ (n - 1).
Proof.
  intros Hn. replace n with (Z.succ (n - 1)) at 1 by lia.
  apply Z.pow_succ_r; lia.
Qed.

(** Or-ing a value below [2 ^ d] into a value shifted left by [d] adds
    it. *)
Lemma lor_shiftl_low (v d b : Z) :
  0 <= d -> 0 <= b < 2 ^ d -> Z.lor (Z.shiftl v d) b = v * 2 ^ d + b.
Proof.
  intros Hd Hb.
  assert (Hland : Z.land (Z.shiftl v d) b = 0).
  { apply Z.bits_inj'. intros n Hn.
    rewrite Z.land_spec, Z.bits_0.
    destruct (Z.lt_ge_cases n d) as [Hlt | Hge].
    - now rewrite Z.shiftl_spec_low.
    - rewrite <- (Z.mod_small b (2 ^ d)) by lia.
      rewrite Z.mod_pow2_bits_high by lia.
      apply andb_false_r. }
  rewrite <- Z.lxor_lor by exact Hland.
  rewrite <- Z.add_nocarry_lxor by exact Hland.
  now rewrite Z.shiftl_mul_pow2.
Qed.

(** ** Family construction and the validator *)

Lemma FXfamily_init_ok (n_bits : Z) (n_intbits : option Z) :
  1 <= n_bits ->
  FXfamily_init n_bits n_intbits =
  Ok (mkFXfamily n_bits n_intbits (2 ^ n_bits) (2 ^ (n_bits - 1))
        (thresh_of n_bits n_intbits)).
Proof.
  intros Hn. unfold FXfamily_init.
  rewrite (py_shl_nonneg 1 n_bits), (py_shl_nonneg 1 (n_bits - 1)) by lia.
  cbn [bind]. rewrite !Z.mul_1_l. do 2 f_equal.
  unfold thresh_of. destruct n_intbits as [k |]; cbn; [| reflexivity].
  unfold py_shl. destruct (Z.ltb_spec (n_bits + k - 1) 0); [reflexivity |].
  now rewrite Z.shiftl_mul_pow2, Z.mul_1_l by lia.
Qed.

Lemma FXfamily_init_fails (n_bits : Z) (n_intbits : option Z) :
  n_bits < 1 -> FXfamily_init n_bits n_intbits = Raise ValueError.
Proof.
  intros Hn. unfold FXfamily_init.
  destruct (Z.lt_ge_cases n_bits 0).
  - now rewrite py_shl_neg.
  - rewrite py_shl_nonneg by lia. cbn [bind].
    now rewrite py_shl_neg by lia.
Qed.

Lemma FXfamily_init_inv (n_bits : Z) (n_intbits : option Z) (fam : FXfamily) :
  FXfamily_init n_bits n_intbits = Ok fam ->
  1 <= n_bits /\
  fam = mkFXfamily n_bits n_intbits (2 ^ n_bits) (2 ^ (n_bits - 1))
          (thresh_of n_bits n_intbits).
Proof.
  intros H. destruct (Z.lt_ge_cases n_bits 1) as [Hlt | Hge].
  - rewrite FXfamily_init_fails in H by lia. discriminate.
  - rewrite FXfamily_init_ok in H by lia. split; [lia | congruence].
Qed.

Lemma validate_in_range (fam : FXfamily) (sv : Z) :
  validate fam sv = Ok tt <-> in_range fam sv.
Proof.
  unfold validate, in_range. destruct (thresh fam) as [t |]; [| tauto].
  destruct (Z.geb_spec sv t), (Z.ltb_spec sv (- t)); cbn;
    split; intros; try discriminate; try lia; reflexivity.
Qed.

Lemma validate_overflow (fam : FXfamily) (sv : Z) :
  validate fam sv = Raise FXoverflowError <-> ~ in_range fam sv.
Proof.
  unfold validate, in_range. destruct (thresh fam) as [t |].
  - destruct (Z.geb_spec sv t), (Z.ltb_spec sv (- t)); cbn;
      split; intros; try discriminate; try lia; reflexivity.
  - split; [discriminate | tauto].
Qed.

Lemma validate_total (fam : FXfamily) (sv : Z) :
  validate fam sv = Ok tt \/ validate fam sv = Raise FXoverflowError.
Proof.
  unfold validate. destruct (thresh fam) as [t |]; [| now left].
  destruct (_ || _); [now right | now left].
Qed.

Lemma _rawbuild_Ok (fam : FXfamily) (sv : Z) :
  in_range fam sv -> _rawbuild fam sv = Ok (mkFXnum fam sv).
Proof.
  intros H. unfold _rawbuild.
  apply validate_in_range in H. now rewrite H.
Qed.

Lemma _rawbuild_overflow (fam : FXfamily) (sv : Z) :
  ~ in_range fam sv -> _rawbuild fam sv = Raise FXoverflowError.
Proof.
  intros H. unfold _rawbuild.
  apply validate_overflow in H. now rewrite H.
Qed.

Lemma _rawbuild_inv (fam : FXfamily) (sv : Z) (r : FXnum) :
  _rawbuild fam sv = Ok r -> r = mkFXnum fam sv /\ in_range fam sv.
Proof.
  unfold _rawbuild. intros H.
  destruct (validate_total fam sv) as [Hv | Hv]; rewrite Hv in H;
    cbn in H; [| discriminate].
  split; [congruence | now apply validate_in_range].
Qed.

Lemma FXnum_init_inv (val : pyval) (fam : FXfamily) (kw : option Z)
    (r : FXnum) :
  FXnum_init val fam kw = Ok r -> family r = fam /\ in_range fam (scaledval r).
Proof.
  unfold FXnum_init. intros H.
  apply bind_Ok in H as ([] & Hv & H).
  injection H as <-. cbn. split; [reflexivity |].
  now apply validate_in_range.
Qed.

(** ** FXfamily.convert *)

Lemma convert_same (self other : FXfamily) (v : Z) :
  fraction_bits self = fraction_bits other -> convert self other v = v.
Proof.
  intros H. unfold convert. rewrite H, Z.sub_diag. reflexivity.
Qed.

Lemma convert_up_pos (self other : FXfamily) (v d : Z) :
  fraction_bits self - fraction_bits other = d -> 0 < d -> 0 < v ->
  convert self other v = Z.lor (Z.shiftl v d) (2 ^ (d - 1)).
Proof.
  intros Hd Hpos Hv. unfold convert. rewrite Hd.
  destruct (Z.eqb_spec d 0); [lia |].
  destruct (Z.gtb_spec d 0); [| lia].
  destruct (Z.gtb_spec v 0); [| lia].
  now rewrite Z.shiftl_1_l.
Qed.

Lemma convert_up_nonpos (self other : FXfamily) (v d : Z) :
  fraction_bits self - fraction_bits other = d -> 0 < d -> v <= 0 ->
  convert self other v = Z.lor (Z.shiftl v d) (2 ^ (d - 1) - 1).
Proof.
  intros Hd Hpos Hv. unfold convert. rewrite Hd.
  destruct (Z.eqb_spec d 0); [lia |].
  destruct (Z.gtb_spec d 0); [| lia].
  destruct (Z.gtb_spec v 0); [lia |].
  now rewrite Z.shiftl_1_l.
Qed.

Lemma convert_down (self other : FXfamily) (v d : Z) :
  fraction_bits self - fraction_bits other = d -> d < 0 ->
  convert self other v = Z.shiftr v (- d).
Proof.
  intros Hd Hneg. unfold convert. rewrite Hd.
  destruct (Z.eqb_spec d 0); [lia |].
  destruct (Z.gtb_spec d 0); [lia | reflexivity].
Qed.

(** When the precision grows by [d] bits the result is the old value
    times [2 ^ d] plus a bias that is below [2 ^ d]. *)
Lemma convert_up_bias (self other : FXfamily) (v d : Z) :
  fraction_bits self - fraction_bits other = d -> 0 < d ->
  exists b, 0 <= b < 2 ^ d /\ convert self other v = v * 2 ^ d + b.
Proof.
  intros Hd Hpos.
  pose proof (pow2_pos (d - 1) ltac:(lia)) as Hp.
  pose proof (pow2_half d ltac:(lia)) as Hh.
  destruct (Z.lt_ge_cases 0 v) as [Hv | Hv].
  - exists (2 ^ (d - 1)). split; [lia |].
    rewrite (convert_up_pos self other v d) by assumption.
    apply lor_shiftl_low; lia.
  - exists (2 ^ (d - 1) - 1). split; [lia |].
    rewrite (convert_up_nonpos self other v d) by assumption.
    apply lor_shiftl_low; lia.
Qed.

(** C1, as the code has it: the bias [2 ^ (d - 1)] is or-ed in for
    strictly positive values only; zero and the negative values receive
    [2 ^ (d - 1) - 1].  Since the shifted value has its [d] low bits
    clear, or-ing the bias is adding it.  A conversion that lowers the
    precision by [d] bits is the arithmetic right shift, the floor of the
    division by [2 ^ d]; with equal precisions the value is returned
    unchanged. *)
Theorem convert_by_cases (self other : FXfamily) (v d : Z) :
  fraction_bits self - fraction_bits other = d ->
  (d = 0 -> convert self other v = v) /\
  (0 < d -> 0 < v ->
     convert self other v = Z.lor (Z.shiftl v d) (2 ^ (d - 1)) /\
     convert self other v = v * 2 ^ d + 2 ^ (d - 1)) /\
  (0 < d -> v <= 0 ->
     convert self other v = Z.lor (Z.shiftl v d) (2 ^ (d - 1) - 1) /\
     convert self other v = v * 2 ^ d + (2 ^ (d - 1) - 1)) /\
  (d < 0 ->
     convert self other v = Z.shiftr v (- d) /\
     convert self other v = v / 2 ^ (- d)).
Proof.
  intros Hd. repeat split.
  - intros ->. apply convert_same. lia.
  - now apply convert_up_pos.
  - rewrite (convert_up_pos self other v d) by assumption.
    pose proof (pow2_pos (d - 1) ltac:(lia)).
    pose proof (pow2_half d ltac:(lia)).
    apply lor_shiftl_low; lia.
  - now apply convert_up_nonpos.
  - rewrite (convert_up_nonpos self other v d) by assumption.
    pose proof (pow2_pos (d - 1) ltac:(lia)).
    pose proof (pow2_half d ltac:(lia)).
    apply lor_shiftl_low; lia.
  - now apply convert_down.
  - rewrite (convert_down self other v d) by assumption.
    apply Z.shiftr_div_pow2. lia.
Qed.

Lemma convert_by_cases_witness :
  convert fam8 fam8 5 = 5 /\
  convert fam8 fam4 3 = 3 * 2 ^ 4 + 2 ^ 3 /\
  convert fam8 fam4 (-3) = (-3) * 2 ^ 4 + (2 ^ 3 - 1) /\
  convert fam4 fam8 (-1) = (-1) / 2 ^ 4.
Proof.
  split; [| split; [| split]].
  - destruct (convert_by_cases fam8 fam8 5 0 eq_refl) as (H & _).
    apply H. reflexivity.
  - destruct (convert_by_cases fam8 fam4 3 4 eq_refl) as (_ & H & _).
    apply H; reflexivity.
  - destruct (convert_by_cases fam8 fam4 (-3) 4 eq_refl) as (_ & _ & H & _).
    apply H; [reflexivity | discriminate].
  - destruct (convert_by_cases fam4 fam8 (-1) (-4) eq_refl) as (_ & _ & _ & H).
    apply H. reflexivity.
Defined.

(** C1 as stated fails at zero: zero is a non-negative value, and its
    conversion from 4 to 8 fractional bits is [7], the bias of the
    negative values, not [0 | 2 ^ 3 = 8]. *)
Lemma convert_zero_counterexample :
  FXfamily_init 8 None = Ok fam8 /\ FXfamily_init 4 None = Ok fam4 /\
  fraction_bits fam8 - fraction_bits fam4 = 4 /\ 0 <= 0 /\
  convert fam8 fam4 0 = 7 /\
  convert fam8 fam4 0 <> Z.lor (Z.shiftl 0 4) (2 ^ (4 - 1)).
Proof.
  repeat split; try reflexivity; discriminate.
Qed.

(** Going up by [d] bits and back down recovers the scaled value. *)
Lemma convert_up_down (A B : FXfamily) (v : Z) :
  fraction_bits A <= fraction_bits B ->
  convert A B (convert B A v) = v.
Proof.
  intros Hle.
  destruct (Z.eq_dec (fraction_bits A) (fraction_bits B)) as [Heq | Hne].
  - now rewrite !convert_same by congruence.
  - set (d := fraction_bits B - fraction_bits A).
    destruct (convert_up_bias B A v d eq_refl) as (b & Hb & ->);
      [unfold d; lia |].
    rewrite (convert_down A B _ (- d)) by (unfold d; lia).
    rewrite Z.opp_involutive, Z.shiftr_div_pow2 by (unfold d; lia).
    rewrite Z.div_add_l by lia.
    rewrite Z.div_small by lia. lia.
Qed.

(** C7: a number of family [A] that is converted into a family [B] with
    at least as many fractional bits, and converted back, is the number
    itself: both constructions succeed when the value is in the range of
    both families, and the scaled value is the original one. *)
Theorem convert_roundtrip (A B : FXfamily) (x : FXnum) :
  fraction_bits A <= fraction_bits B ->
  family x = A ->
  validate A (scaledval x) = Ok tt ->
  validate B (convert B A (scaledval x)) = Ok tt ->
  exists y, FXnum_init (PyFX x) B None = Ok y /\
            FXnum_init (PyFX y) A None = Ok x /\
            scaledval y = convert B A (scaledval x).
Proof.
  intros Hle HA Hx Hy. destruct x as [fx sv]. cbn in *. subst fx.
  exists (mkFXnum B (convert B A sv)).
  unfold FXnum_init. rewrite Hy. cbn.
  rewrite convert_up_down by assumption.
  rewrite Hx. cbn. auto.
Qed.

Lemma convert_roundtrip_witness :
  exists y, FXnum_init (PyFX (mkFXnum fam4_4 (-37))) fam8_4 None = Ok y /\
            FXnum_init (PyFX y) fam4_4 None = Ok (mkFXnum fam4_4 (-37)) /\
            scaledval y = convert fam8_4 fam4_4 (-37).
Proof.
  apply (convert_roundtrip fam4_4 fam8_4 (mkFXnum fam4_4 (-37))).
  - cbn. lia.
  - reflexivity.
  - reflexivity.
  - reflexivity.
Defined.

(** ** FXfamily.augment *)

(** The loop counts the binary digits of [nb]. *)
Lemma augment_loop_nonpos (nb augbits : Z) :
  nb <= 0 -> augment_loop nb augbits = augbits.
Proof.
  intros H. simp augment_loop.
  destruct (Z_lt_dec 0 nb); [lia | reflexivity].
Qed.

Lemma augment_loop_step (nb augbits : Z) :
  0 < nb -> augment_loop nb augbits = augment_loop (Z.shiftr nb 1) (augbits + 1).
Proof.
  intros H. rewrite augment_loop_equation_1 at 1.
  destruct (Z_lt_dec 0 nb); [reflexivity | lia].
Qed.

Lemma augment_loop_log2 (nb augbits : Z) :
  0 < nb -> augment_loop nb augbits = augbits + Z.log2 nb + 1.
Proof.
  revert augbits.
  induction nb as [nb IH] using (well_founded_induction (Z.lt_wf 0)).
  intros augbits Hpos.
  rewrite augment_loop_step by assumption.
  destruct (Z.eq_dec nb 1) as [-> | Hne].
  - cbn. rewrite augment_loop_nonpos by lia. lia.
  - assert (Hhalf : 0 < Z.shiftr nb 1 < nb).
    { rewrite Z.shiftr_div_pow2 by lia. change (2 ^ 1) with 2.
      split; [apply Z.div_str_pos; lia | apply Z.div_lt; lia]. }
    rewrite IH by lia.
    rewrite Z.log2_shiftr by assumption.
    assert (1 <= Z.log2 nb) by (apply Z.log2_le_pow2; [| cbn]; lia).
    lia.
Qed.

(** For a positive count, the added bits are [ceil(log2(opcount + 1))]
    more than four. *)
Lemma augment_loop_log2_up (nb : Z) :
  1 <= nb -> augment_loop nb 4 = 4 + Z.log2_up (nb + 1).
Proof.
  intros H. rewrite augment_loop_log2 by lia.
  rewrite Z.log2_up_eqn by lia.
  replace (Z.pred (nb + 1)) with nb by lia. lia.
Qed.

(** C3, as the code has it: the loop adds one bit per binary digit of
    [opcount], so the new family has [4 + floor(log2 opcount) + 1], that
    is [4 + ceil(log2 (opcount + 1))], fractional bits more than the
    original one, and no limit on its integer bits; without [opcount] the
    count is the family's own number of fractional bits. *)
Theorem augment_fraction_bits (self : FXfamily) (opcount : Z) :
  1 <= fraction_bits self -> 1 <= opcount ->
  (exists fam, augment self (Some opcount) = Ok fam /\
     fraction_bits fam = fraction_bits self + (4 + Z.log2 opcount + 1) /\
     fraction_bits fam = fraction_bits self + (4 + Z.log2_up (opcount + 1)) /\
     integer_bits fam = None) /\
  augment self None = augment self (Some (fraction_bits self)).
Proof.
  intros Hfb Hop. split; [| reflexivity].
  unfold augment.
  pose proof (Z.log2_nonneg opcount) as Hlog.
  rewrite (augment_loop_log2 opcount 4) by lia.
  rewrite FXfamily_init_ok by lia.
  eexists. split; [reflexivity |]. cbn [fraction_bits integer_bits].
  rewrite Z.log2_up_eqn by lia.
  replace (Z.pred (opcount + 1)) with opcount by lia.
  split; [| split]; [lia | lia | reflexivity].
Qed.

Lemma augment_fraction_bits_witness :
  (exists fam, augment fam8 (Some 4) = Ok fam /\
     fraction_bits fam = 8 + (4 + Z.log2 4 + 1) /\
     fraction_bits fam = 8 + (4 + Z.log2_up (4 + 1)) /\
     integer_bits fam = None) /\
  augment fam8 None = augment fam8 (Some 8).
Proof.
  apply (augment_fraction_bits fam8 4); cbn; lia.
Defined.

(** C3 as stated fails at every power of two: for one operation the
    code adds five bits, not [4 + ceil(log2 1) = 4]. *)
Lemma augment_counterexample :
  FXfamily_init 8 None = Ok fam8 /\
  exists fam, augment fam8 (Some 1) = Ok fam /\
              fraction_bits fam = 13 /\
              fraction_bits fam <> fraction_bits fam8 + (4 + Z.log2_up 1).
Proof.
  split; [reflexivity |].
  eexists. split; [reflexivity |]. cbn. split; [reflexivity | discriminate].
Qed.

(** ** The overflow boundary *)

Lemma thresh_init (n_bits k : Z) (fam : FXfamily) :
  0 <= k -> FXfamily_init n_bits (Some k) = Ok fam ->
  thresh fam = Some (2 ^ (n_bits + k - 1)).
Proof.
  intros Hk H. apply FXfamily_init_inv in H as [Hn ->]. cbn.
  destruct (Z.ltb_spec (n_bits + k - 1) 0); [lia | reflexivity].
Qed.

(** C5: in every family with a limit on its integer bits, the scaled
    value [2 ^ (fraction_bits + integer_bits - 1) - 1] can be constructed
    and the next one is refused with the overflow error, by the public
    constructor as well as by the internal one. *)
Theorem overflow_boundary (n_bits n_intbits : Z) :
  1 <= n_bits -> 0 <= n_intbits ->
  exists fam, FXfamily_init n_bits (Some n_intbits) = Ok fam /\
    let top := 2 ^ (n_bits + n_intbits - 1) in
    FXnum_init (PyInt 0) fam (Some (top - 1)) = Ok (mkFXnum fam (top - 1)) /\
    _rawbuild fam (top - 1) = Ok (mkFXnum fam (top - 1)) /\
    FXnum_init (PyInt 0) fam (Some top) = Raise FXoverflowError /\
    _rawbuild fam top = Raise FXoverflowError.
Proof.
  intros Hn Hk. eexists. split; [apply FXfamily_init_ok; lia |].
  set (fam := mkFXfamily _ _ _ _ _).
  pose proof (pow2_pos (n_bits + n_intbits - 1) ltac:(lia)) as Hp.
  assert (Hth : thresh fam = Some (2 ^ (n_bits + n_intbits - 1))).
  { apply (thresh_init n_bits n_intbits); [lia |].
    apply FXfamily_init_ok; lia. }
  cbv zeta.
  assert (Hin : in_range fam (2 ^ (n_bits + n_intbits - 1) - 1))
    by (unfold in_range; rewrite Hth; lia).
  assert (Hout : ~ in_range fam (2 ^ (n_bits + n_intbits - 1)))
    by (unfold in_range; rewrite Hth; lia).
  repeat split.
  - unfold FXnum_init.
    apply validate_in_range in Hin. now rewrite Hin.
  - now apply _rawbuild_Ok.
  - unfold FXnum_init.
    apply validate_overflow in Hout. now rewrite Hout.
  - now apply _rawbuild_overflow.
Qed.

Lemma overflow_boundary_witness :
  exists fam, FXfamily_init 12 (Some 4) = Ok fam /\
    FXnum_init (PyInt 0) fam (Some (2 ^ 15 - 1))
      = Ok (mkFXnum fam (2 ^ 15 - 1)) /\
    _rawbuild fam (2 ^ 15 - 1) = Ok (mkFXnum fam (2 ^ 15 - 1)) /\
    FXnum_init (PyInt 0) fam (Some (2 ^ 15)) = Raise FXoverflowError /\
    _rawbuild fam (2 ^ 15) = Raise FXoverflowError.
Proof.
  apply (overflow_boundary 12 4); lia.
Defined.

(** ** The range invariant *)

Lemma FXfamily_ne_family (f g : FXfamily) :
  FXfamily_ne f (obj_of_family g) =
  Ok (negb (fraction_bits f =? fraction_bits g)
      || negb (pyattr_eqb (attr_of_opt (integer_bits f))
                          (attr_of_opt (integer_bits g)))).
Proof.
  unfold FXfamily_ne, getattr, obj_of_family. cbn.
  destruct (fraction_bits f =? fraction_bits g); reflexivity.
Qed.

Lemma FXfamily_eq_family (f g : FXfamily) :
  FXfamily_eq f (obj_of_family g) =
  Ok ((fraction_bits f =? fraction_bits g)
      && pyattr_eqb (attr_of_opt (integer_bits f))
                    (attr_of_opt (integer_bits g))).
Proof.
  unfold FXfamily_eq, getattr, obj_of_family. cbn.
  destruct (fraction_bits f =? fraction_bits g); reflexivity.
Qed.

Lemma pyattr_eqb_refl (a : pyattr) : pyattr_eqb a a = true.
Proof. destruct a; cbn; [apply Z.eqb_refl | reflexivity]. Qed.

Lemma FXfamily_ne_same (f : FXfamily) :
  FXfamily_ne f (obj_of_family f) = Ok false.
Proof.
  rewrite FXfamily_ne_family, Z.eqb_refl, pyattr_eqb_refl. reflexivity.
Qed.

Lemma FXfamily_eq_same (f : FXfamily) :
  FXfamily_eq f (obj_of_family f) = Ok true.
Proof.
  rewrite FXfamily_eq_family, Z.eqb_refl, pyattr_eqb_refl. reflexivity.
Qed.

Lemma _CastOrFail_same (x o : FXnum) :
  family o = family x -> _CastOrFail_ x (PyFX o) = Ok o.
Proof.
  intros H. unfold _CastOrFail_. rewrite H, FXfamily_ne_same. reflexivity.
Qed.

(** Every number that a family hands out passed the family's validator. *)
Lemma produced_in_range (fam : FXfamily) (r : FXnum) :
  produced fam r -> family r = fam /\ in_range fam (scaledval r).
Proof.
  induction 1 as
    [ val kw r H | sv r H | n k r H | x r Hx H | x r Hx IH H | x r Hx IH H
    | x o r Hx H | x o r Hx H | x o r Hx H | x o r Hx H
    | x k r Hx H | x k r Hx H
    | x o r Hx H | x o r Hx H | x o r Hx H | x o r Hx H ].
  - now apply FXnum_init_inv in H.
  - apply _rawbuild_inv in H as [-> H]. now split.
  - unfold from2c in H. apply bind_Ok in H as (m & _ & H).
    destruct (_ || _); [discriminate |].
    apply _rawbuild_inv in H as [-> H]. now split.
  - unfold FXnum_neg in H. rewrite Hx in H.
    apply _rawbuild_inv in H as [-> H]. now split.
  - unfold FXnum_abs in H. destruct (scaledval x <? 0).
    + unfold FXnum_neg in H. destruct IH as [Hf _]. rewrite Hf in H.
      apply _rawbuild_inv in H as [-> H]. now split.
    + injection H as <-. exact IH.
  - injection H as <-. exact IH.
  - unfold FXnum_add in H. apply bind_Ok in H as (o' & _ & H).
    rewrite Hx in H. apply _rawbuild_inv in H as [-> H]. now split.
  - unfold FXnum_sub in H. apply bind_Ok in H as (o' & _ & H).
    rewrite Hx in H. apply _rawbuild_inv in H as [-> H]. now split.
  - unfold FXnum_mul in H. apply bind_Ok in H as (o' & _ & H).
    apply bind_Ok in H as (q & _ & H).
    rewrite Hx in H. apply _rawbuild_inv in H as [-> H]. now split.
  - unfold FXnum_truediv in H. apply bind_Ok in H as (o' & _ & H).
    apply bind_Ok in H as (q & _ & H).
    rewrite Hx in H. apply _rawbuild_inv in H as [-> H]. now split.
  - unfold FXnum_lshift in H. apply bind_Ok in H as (v & _ & H).
    rewrite Hx in H. apply _rawbuild_inv in H as [-> H]. now split.
  - unfold FXnum_rshift in H. apply bind_Ok in H as (v & _ & H).
    rewrite Hx in H. apply _rawbuild_inv in H as [-> H]. now split.
  - unfold FXnum_radd in H. apply bind_Ok in H as (t & Ht & H).
    apply FXnum_init_inv in Ht as [Ht _].
    unfold FXnum_add in H. apply bind_Ok in H as (o' & _ & H).
    rewrite Ht, Hx in H. apply _rawbuild_inv in H as [-> H]. now split.
  - unfold FXnum_rsub in H. apply bind_Ok in H as (t & Ht & H).
    apply FXnum_init_inv in Ht as [Ht _].
    unfold FXnum_sub in H. apply bind_Ok in H as (o' & _ & H).
    rewrite Ht, Hx in H. apply _rawbuild_inv in H as [-> H]. now split.
  - unfold FXnum_rmul in H. apply bind_Ok in H as (t & Ht & H).
    apply FXnum_init_inv in Ht as [Ht _].
    unfold FXnum_mul in H. apply bind_Ok in H as (o' & _ & H).
    apply bind_Ok in H as (q & _ & H).
    rewrite Ht, Hx in H. apply _rawbuild_inv in H as [-> H]. now split.
  - unfold FXnum_rtruediv in H. apply bind_Ok in H as (t & Ht & H).
    apply FXnum_init_inv in Ht as [Ht _].
    unfold FXnum_truediv in H. apply bind_Ok in H as (o' & _ & H).
    apply bind_Ok in H as (q & _ & H).
    rewrite Ht, Hx in H. apply _rawbuild_inv in H as [-> H]. now split.
Qed.

(** C2, as the code has it: the validator of a family with a limit on
    its integer bits accepts the two's-complement range
    [- 2 ^ (fraction_bits + integer_bits - 1) <= scaledval <
     2 ^ (fraction_bits + integer_bits - 1)], lower end included.  Every
    number handed out by a constructor, by the decoder or by an operator
    lies in it, and a candidate is refused with the overflow error
    exactly when it lies outside. *)
Theorem range_invariant (n_bits n_intbits : Z) (fam : FXfamily) :
  0 <= n_intbits ->
  FXfamily_init n_bits (Some n_intbits) = Ok fam ->
  let top := 2 ^ (n_bits + n_intbits - 1) in
  (forall r, produced fam r -> - top <= scaledval r < top) /\
  (forall sv, - top <= sv < top ->
     validate fam sv = Ok tt /\
     _rawbuild fam sv = Ok (mkFXnum fam sv) /\
     FXnum_init (PyInt 0) fam (Some sv) = Ok (mkFXnum fam sv)) /\
  (forall sv, ~ (- top <= sv < top) ->
     validate fam sv = Raise FXoverflowError /\
     _rawbuild fam sv = Raise FXoverflowError /\
     FXnum_init (PyInt 0) fam (Some sv) = Raise FXoverflowError).
Proof.
  intros Hk Hfam top.
  pose proof (thresh_init _ _ _ Hk Hfam) as Hth. fold top in Hth.
  assert (Hr : forall sv, in_range fam sv <-> - top <= sv < top)
    by (intros sv; unfold in_range; rewrite Hth; tauto).
  split; [| split].
  - intros r Hp. apply Hr. now apply produced_in_range.
  - intros sv Hsv. apply Hr in Hsv.
    pose proof (proj2 (validate_in_range fam sv) Hsv) as Hv.
    unfold _rawbuild, FXnum_init. rewrite Hv. auto.
  - intros sv Hsv. rewrite <- Hr in Hsv.
    pose proof (proj2 (validate_overflow fam sv) Hsv) as Hv.
    unfold _rawbuild, FXnum_init. rewrite Hv. auto.
Qed.

Lemma range_invariant_witness :
  (forall r, produced fam4_4 r -> - 2 ^ 7 <= scaledval r < 2 ^ 7) /\
  _rawbuild fam4_4 127 = Ok (mkFXnum fam4_4 127) /\
  _rawbuild fam4_4 (-129) = Raise FXoverflowError.
Proof.
  destruct (range_invariant 4 4 fam4_4 ltac:(lia) eq_refl) as (H1 & H2 & H3).
  split; [exact H1 | split].
  - apply (H2 127). cbn. lia.
  - apply (H3 (-129)). cbn. lia.
Defined.

(** C2 as stated fails at the lower end of the range: in the family with
    4 fractional and 4 integer bits [FXnum(-8)] is constructed with the
    scaled value [- 2 ^ 7], whose magnitude is not below [2 ^ 7]. *)
Lemma range_invariant_counterexample :
  FXfamily_init 4 (Some 4) = Ok fam4_4 /\
  FXnum_init (PyInt (-8)) fam4_4 None = Ok (mkFXnum fam4_4 (- 2 ^ 7)) /\
  produced fam4_4 (mkFXnum fam4_4 (- 2 ^ 7)) /\
  ~ Z.abs (scaledval (mkFXnum fam4_4 (- 2 ^ 7))) < 2 ^ (4 + 4 - 1).
Proof.
  split; [reflexivity | split; [reflexivity | split]].
  - now apply (produced_init fam4_4 (PyInt (-8)) None).
  - cbn. lia.
Qed.

(** ** The shift operators *)

Lemma inject_Z_nonzero (z : Z) : z <> 0 -> ~ (inject_Z z == 0)%Q.
Proof.
  intros Hz H. apply Hz. now apply (inject_Z_injective z 0).
Qed.

(** Two numbers of one scale: the first is the second divided by [p]
    exactly when its scaled value times [p] is the other scaled value. *)
Lemma Q_quotient_exact (a b s p : Z) :
  s <> 0 -> p <> 0 ->
  (inject_Z a / inject_Z s == inject_Z b / inject_Z s / inject_Z p)%Q <->
  a * p = b.
Proof.
  intros Hs Hp.
  pose proof (inject_Z_nonzero s Hs) as Hs'.
  pose proof (inject_Z_nonzero p Hp) as Hp'.
  split.
  - intros H. apply inject_Z_injective. rewrite inject_Z_mult.
    assert (E : (inject_Z a == inject_Z a / inject_Z s * inject_Z s)%Q)
      by (field; exact Hs').
    rewrite E, H. field. split; assumption.
  - intros <-. rewrite inject_Z_mult. field. split; assumption.
Qed.

Lemma value_shl (fam : FXfamily) (sv k : Z) :
  scale fam <> 0 ->
  (value (mkFXnum fam (sv * 2 ^ k)) ==
   value (mkFXnum fam sv) * inject_Z (2 ^ k))%Q.
Proof.
  intros Hs. unfold value. cbn. rewrite inject_Z_mult.
  field. now apply inject_Z_nonzero.
Qed.

(** A value in the range of a family stays there when it is shifted to
    the right. *)
Lemma in_range_shr (fam : FXfamily) (sv k : Z) :
  0 <= k -> in_range fam sv -> in_range fam (sv / 2 ^ k).
Proof.
  unfold in_range. intros Hk. destruct (thresh fam) as [t |]; [| trivial].
  intros Hsv. pose proof (pow2_pos k Hk) as Hp.
  destruct (Z.lt_ge_cases sv 0) as [Hneg | Hpos].
  - assert (sv / 2 ^ k < 0) by (apply Z.div_lt_upper_bound; lia).
    assert (sv <= sv / 2 ^ k); [| lia].
    apply Z.div_le_lower_bound; [lia |]. nia.
  - assert (0 <= sv / 2 ^ k) by (apply Z.div_pos; lia).
    assert (sv / 2 ^ k <= sv); [| lia].
    apply Z.div_le_upper_bound; [lia |]. nia.
Qed.

(** C4, as the code has it.  Both shifts build their result through the
    validator.  The left shift multiplies the scaled value by [2 ^ k], so
    a result that is built has exactly the value times [2 ^ k].  The right
    shift is the arithmetic shift of the scaled value, that is the floor
    of its division by [2 ^ k]: the low [k] bits are dropped, and the
    result has the value divided by [2 ^ k] only when [2 ^ k] divides the
    scaled value.  The right shift of a number in the range of its family
    always builds its result. *)
Theorem shift_operators (x : FXnum) (k : Z) :
  0 <= k -> scale (family x) <> 0 ->
  FXnum_lshift x k = _rawbuild (family x) (scaledval x * 2 ^ k) /\
  (forall r, FXnum_lshift x k = Ok r ->
     (value r == value x * inject_Z (2 ^ k))%Q) /\
  FXnum_rshift x k = _rawbuild (family x) (scaledval x / 2 ^ k) /\
  (forall r, FXnum_rshift x k = Ok r ->
     scaledval r * 2 ^ k <= scaledval x < (scaledval r + 1) * 2 ^ k /\
     ((value r == value x / inject_Z (2 ^ k))%Q <->
      (2 ^ k | scaledval x))) /\
  (validate (family x) (scaledval x) = Ok tt ->
   exists r, FXnum_rshift x k = Ok r).
Proof.
  intros Hk Hs. destruct x as [fam sv]. cbn [family scaledval] in *.
  pose proof (pow2_pos k Hk) as Hp.
  assert (Hl : FXnum_lshift (mkFXnum fam sv) k = _rawbuild fam (sv * 2 ^ k))
    by (unfold FXnum_lshift; cbn; now rewrite py_shl_nonneg).
  assert (Hr : FXnum_rshift (mkFXnum fam sv) k = _rawbuild fam (sv / 2 ^ k))
    by (unfold FXnum_rshift; cbn; now rewrite py_shr_nonneg).
  split; [exact Hl | split; [| split; [exact Hr | split]]].
  - intros r H. rewrite Hl in H. apply _rawbuild_inv in H as [-> _].
    now apply value_shl.
  - intros r H. rewrite Hr in H. apply _rawbuild_inv in H as [-> _].
    cbn [scaledval]. split.
    + pose proof (Z.mul_div_le sv (2 ^ k) Hp).
      pose proof (Z.mul_succ_div_gt sv (2 ^ k) Hp). lia.
    + unfold value. cbn [scaledval family].
      rewrite Q_quotient_exact by lia. split.
      * intros H. exists (sv / 2 ^ k). lia.
      * intros [c ->]. now rewrite Z.div_mul by lia.
  - intros Hv. exists (mkFXnum fam (sv / 2 ^ k)). rewrite Hr.
    apply _rawbuild_Ok, in_range_shr; [assumption |].
    now apply validate_in_range.
Qed.

Lemma shift_operators_witness :
  FXnum_lshift (mkFXnum fam4 5) 3 = Ok (mkFXnum fam4 40) /\
  FXnum_rshift (mkFXnum fam4 5) 1 = Ok (mkFXnum fam4 2) /\
  (exists r, FXnum_rshift (mkFXnum fam4_4 (-128)) 2 = Ok r).
Proof.
  destruct (shift_operators (mkFXnum fam4 5) 3 ltac:(lia) ltac:(discriminate))
    as (H1 & _).
  destruct (shift_operators (mkFXnum fam4 5) 1 ltac:(lia) ltac:(discriminate))
    as (_ & _ & H2 & _).
  destruct (shift_operators (mkFXnum fam4_4 (-128)) 2
              ltac:(lia) ltac:(discriminate)) as (_ & _ & _ & _ & H3).
  split; [exact H1 | split; [exact H2 | apply H3; reflexivity]].
Defined.

(** C4 as stated fails for the right shift: the number with scaled value
    [1] shifted right by one bit is zero, not half of its value. *)
Lemma rshift_counterexample :
  FXfamily_init 4 None = Ok fam4 /\
  FXnum_rshift (mkFXnum fam4 1) 1 = Ok (mkFXnum fam4 0) /\
  ~ (value (mkFXnum fam4 0) == value (mkFXnum fam4 1) / inject_Z (2 ^ 1))%Q.
Proof.
  split; [reflexivity | split; [reflexivity |]].
  intros H. vm_compute in H. discriminate.
Qed.

(** ** Division *)

(** The floor of a quotient of integers is Python's floor division. *)
Lemma Qfloor_quotient (n d : Z) :
  d <> 0 -> Qfloor (inject_Z n / inject_Z d) = n / d.
Proof.
  intros Hd. unfold Qdiv, Qinv, inject_Z. cbn [Qnum].
  destruct d as [| p | p]; [lia | |]; cbn [Qmult Qnum Qden Qfloor].
  - now rewrite Z.mul_1_r.
  - rewrite <- (Z.div_opp_opp n (Z.neg p)) by lia.
    f_equal. lia.
Qed.

(** C6, as the code has it: the quotient of two numbers of one family is
    built, through the validator, from the floor of
    [(a.scaledval * scale + scale / 2) / b.scaledval]; the sum is not
    rounded again.  A divisor whose scaled value is zero makes the host's
    integer division fail with ZeroDivisionError. *)
Theorem truediv_floor (n_bits : Z) (n_intbits : option Z) (fam : FXfamily)
    (a b : FXnum) :
  FXfamily_init n_bits n_intbits = Ok fam ->
  family a = fam -> family b = fam ->
  (scaledval b = 0 ->
     FXnum_truediv a (PyFX b) = Raise ZeroDivisionError) /\
  (scaledval b <> 0 ->
     let q := Qfloor (inject_Z (scaledval a * scale fam + scale fam / 2)
                      / inject_Z (scaledval b)) in
     q = (scaledval a * 2 ^ n_bits + 2 ^ (n_bits - 1)) / scaledval b /\
     FXnum_truediv a (PyFX b) = _rawbuild fam q /\
     (validate fam q = Ok tt ->
        FXnum_truediv a (PyFX b) = Ok (mkFXnum fam q)) /\
     (validate fam q <> Ok tt ->
        FXnum_truediv a (PyFX b) = Raise FXoverflowError)).
Proof.
  intros Hfam Ha Hb. apply FXfamily_init_inv in Hfam as [Hn Hfam].
  assert (Hscale : scale fam = 2 ^ n_bits) by (now subst fam).
  assert (Hround : _roundup fam = 2 ^ (n_bits - 1)) by (now subst fam).
  assert (Hhalf : 2 ^ n_bits / 2 = 2 ^ (n_bits - 1)).
  { rewrite (pow2_half n_bits) by lia.
    rewrite Z.mul_comm. apply Z.div_mul. lia. }
  unfold FXnum_truediv.
  rewrite _CastOrFail_same by congruence. cbn [bind].
  rewrite Ha, Hscale, Hround. unfold py_floordiv.
  split.
  - intros ->. reflexivity.
  - intros Hnz. cbv zeta. rewrite Hhalf, Qfloor_quotient by assumption.
    destruct (Z.eqb_spec (scaledval b) 0); [contradiction |]. cbn [bind].
    split; [reflexivity | split; [reflexivity | split]].
    + intros Hv. unfold _rawbuild. now rewrite Hv.
    + intros Hv. unfold _rawbuild.
      destruct (validate_total fam
                  ((scaledval a * 2 ^ n_bits + 2 ^ (n_bits - 1)) / scaledval b))
        as [H | H]; [contradiction | now rewrite H].
Qed.

Lemma truediv_floor_witness :
  FXnum_truediv (mkFXnum fam4_4 16) (PyFX (mkFXnum fam4_4 0))
    = Raise ZeroDivisionError /\
  FXnum_truediv (mkFXnum fam4_4 16) (PyFX (mkFXnum fam4_4 48))
    = Ok (mkFXnum fam4_4 5) /\
  FXnum_truediv (mkFXnum fam4_4 127) (PyFX (mkFXnum fam4_4 1))
    = Raise FXoverflowError.
Proof.
  split; [| split].
  - destruct (truediv_floor 4 (Some 4) fam4_4
                (mkFXnum fam4_4 16) (mkFXnum fam4_4 0)
                eq_refl eq_refl eq_refl) as (H & _).
    apply H. reflexivity.
  - destruct (truediv_floor 4 (Some 4) fam4_4
                (mkFXnum fam4_4 16) (mkFXnum fam4_4 48)
                eq_refl eq_refl eq_refl) as (_ & H).
    destruct (H ltac:(discriminate)) as (_ & _ & H1 & _).
    apply H1. reflexivity.
  - destruct (truediv_floor 4 (Some 4) fam4_4
                (mkFXnum fam4_4 127) (mkFXnum fam4_4 1)
                eq_refl eq_refl eq_refl) as (_ & H).
    destruct (H ltac:(discriminate)) as (_ & _ & _ & H2).
    apply H2. discriminate.
Defined.

(** C6 as stated fails: with 4 fractional bits, 1 divided by 3 has the
    scaled value [5], the floor of [(16 * 16 + 8) / 48 = 5.5], where
    rounding halves upwards gives [6]; and [1/16] divided by 2 has the
    scaled value [0], where the quotient [16 / 32] rounds to [1]. *)
Lemma truediv_counterexample :
  FXfamily_init 4 None = Ok fam4 /\
  FXnum_truediv (mkFXnum fam4 16) (PyFX (mkFXnum fam4 48))
    = Ok (mkFXnum fam4 5) /\
  round_half_up (inject_Z (16 * scale fam4 + scale fam4 / 2) / inject_Z 48)
    = 6 /\
  FXnum_truediv (mkFXnum fam4 1) (PyFX (mkFXnum fam4 32))
    = Ok (mkFXnum fam4 0) /\
  round_half_up (inject_Z (1 * scale fam4) / inject_Z 32) = 1.
Proof.
  repeat split.
Qed.

(** The example of the module's documentation: [FXnum(21) / 10] in the
    default family is just below 2.1, where rounding to the nearest
    would give the scaled value that ends in 394. *)
Example truediv_doctest :
  (fam <- _defaultFamily ;;
   x <- FXnum_init (PyInt 21) fam None ;;
   q <- FXnum_truediv x (PyInt 10) ;;
   Ok (scaledval q)) = Ok 38738162554790058393.
Proof. reflexivity. Qed.

(** ** The identities *)

Lemma thresh_pos (n_bits : Z) (n_intbits : option Z) (fam : FXfamily) :
  FXfamily_init n_bits n_intbits = Ok fam ->
  match thresh fam with Some t => 0 < t | None => True end.
Proof.
  intros H. apply FXfamily_init_inv in H as [_ ->]. cbn.
  unfold thresh_of. destruct n_intbits as [k |]; [| trivial].
  destruct (Z.ltb_spec (n_bits + k - 1) 0); [trivial |].
  apply pow2_pos. lia.
Qed.

Lemma zero_Ok (n_bits : Z) (n_intbits : option Z) (fam : FXfamily) :
  FXfamily_init n_bits n_intbits = Ok fam ->
  zero fam = Ok (mkFXnum fam 0).
Proof.
  intros H. unfold zero, FXnum_init. cbn [Z.mul].
  assert (Hz : in_range fam 0).
  { pose proof (thresh_pos _ _ _ H) as Ht. unfold in_range.
    destruct (thresh fam); [lia | trivial]. }
  apply validate_in_range in Hz. now rewrite Hz.
Qed.

Lemma FXnum_eq_refl (x : FXnum) : FXnum_eq x (PyFX x) = Ok true.
Proof.
  unfold FXnum_eq. rewrite _CastOrFail_same by reflexivity. cbn [bind].
  rewrite Z.eqb_refl. apply FXfamily_eq_same.
Qed.

(** C8, as the code has it.  Adding the family's zero to a number gives
    the number itself.  Multiplying by the family's unity gives the
    number itself when the unity can be constructed, which needs a
    family without a limit on its integer bits or with at least two of
    them; with fewer the scaled value [2 ^ fraction_bits] of the unity is
    outside the range and its construction is refused with the overflow
    error. *)
Theorem identities (n_bits : Z) (n_intbits : option Z) (fam : FXfamily)
    (x : FXnum) :
  FXfamily_init n_bits n_intbits = Ok fam ->
  (forall k, n_intbits = Some k -> 0 <= k) ->
  family x = fam ->
  validate fam (scaledval x) = Ok tt ->
  (exists z, zero fam = Ok z /\ FXnum_add x (PyFX z) = Ok x /\
             (s <- FXnum_add x (PyFX z) ;; FXnum_eq s (PyFX x)) = Ok true) /\
  ((forall k, n_intbits = Some k -> 2 <= k) ->
   exists u, unity fam = Ok u /\ FXnum_mul x (PyFX u) = Ok x /\
             (p <- FXnum_mul x (PyFX u) ;; FXnum_eq p (PyFX x)) = Ok true) /\
  ((exists k, n_intbits = Some k /\ k <= 1) ->
   unity fam = Raise FXoverflowError).
Proof.
  intros Hfam Hib Hx Hv. destruct x as [fx sv]. cbn [family scaledval] in *.
  subst fx. pose proof (zero_Ok _ _ _ Hfam) as Hz.
  destruct (FXfamily_init_inv _ _ _ Hfam) as [Hn Hrec].
  assert (Hscale : scale fam = 2 ^ n_bits) by (now subst fam).
  assert (Hround : _roundup fam = 2 ^ (n_bits - 1)) by (now subst fam).
  assert (Hth : thresh fam = thresh_of n_bits n_intbits) by (now subst fam).
  pose proof (pow2_pos n_bits ltac:(lia)) as Hp.
  pose proof (pow2_pos (n_bits - 1) ltac:(lia)) as Hp'.
  pose proof (pow2_half n_bits Hn) as Hh.
  split; [| split].
  - exists (mkFXnum fam 0). split; [exact Hz |].
    assert (Hadd : FXnum_add (mkFXnum fam sv) (PyFX (mkFXnum fam 0))
                   = Ok (mkFXnum fam sv)).
    { unfold FXnum_add. rewrite _CastOrFail_same by reflexivity.
      cbn [bind family scaledval]. rewrite Z.add_0_r.
      unfold _rawbuild. now rewrite Hv. }
    split; [exact Hadd |]. rewrite Hadd. cbn [bind]. apply FXnum_eq_refl.
  - intros Hk. exists (mkFXnum fam (2 ^ n_bits)).
    assert (Hu : unity fam = Ok (mkFXnum fam (2 ^ n_bits))).
    { unfold unity, FXnum_init. rewrite Hscale, Z.mul_1_l.
      assert (Hin : in_range fam (2 ^ n_bits)).
      { unfold in_range. rewrite Hth. unfold thresh_of.
        destruct n_intbits as [k |]; [| trivial].
        specialize (Hk k eq_refl).
        destruct (Z.ltb_spec (n_bits + k - 1) 0); [trivial |].
        assert (2 ^ n_bits < 2 ^ (n_bits + k - 1))
          by (apply Z.pow_lt_mono_r; lia).
        lia. }
      apply validate_in_range in Hin. now rewrite Hin. }
    split; [exact Hu |].
    assert (Hmul : FXnum_mul (mkFXnum fam sv) (PyFX (mkFXnum fam (2 ^ n_bits)))
                   = Ok (mkFXnum fam sv)).
    { unfold FXnum_mul. rewrite _CastOrFail_same by reflexivity.
      cbn [bind family scaledval]. rewrite Hscale, Hround.
      unfold py_floordiv. destruct (Z.eqb_spec (2 ^ n_bits) 0); [lia |].
      cbn [bind]. rewrite Z.div_add_l by lia.
      rewrite (Z.div_small (2 ^ (n_bits - 1))) by lia.
      rewrite Z.add_0_r. unfold _rawbuild. now rewrite Hv. }
    split; [exact Hmul |]. rewrite Hmul. cbn [bind]. apply FXnum_eq_refl.
  - intros (k & -> & Hk). specialize (Hib k eq_refl).
    unfold unity, FXnum_init. rewrite Hscale, Z.mul_1_l.
    assert (Hout : ~ in_range fam (2 ^ n_bits)).
    { unfold in_range. rewrite Hth. unfold thresh_of.
      destruct (Z.ltb_spec (n_bits + k - 1) 0); [lia |].
      assert (2 ^ (n_bits + k - 1) <= 2 ^ n_bits)
        by (apply Z.pow_le_mono_r; lia).
      lia. }
    apply validate_overflow in Hout. now rewrite Hout.
Qed.

Lemma identities_witness :
  (exists z, zero fam4_2 = Ok z /\
     FXnum_add (mkFXnum fam4_2 (-32)) (PyFX z) = Ok (mkFXnum fam4_2 (-32))) /\
  (exists u, unity fam4_2 = Ok u /\
     FXnum_mul (mkFXnum fam4_2 (-32)) (PyFX u) = Ok (mkFXnum fam4_2 (-32))) /\
  unity fam4_1 = Raise FXoverflowError.
Proof.
  assert (H2 : forall k, Some 2 = Some k -> 0 <= k)
    by (intros k [= <-]; lia).
  assert (H1 : forall k, Some 1 = Some k -> 0 <= k)
    by (intros k [= <-]; lia).
  destruct (identities 4 (Some 2) fam4_2 (mkFXnum fam4_2 (-32))
              eq_refl H2 eq_refl eq_refl) as (Ha & Hm & _).
  destruct (identities 4 (Some 1) fam4_1 (mkFXnum fam4_1 3)
              eq_refl H1 eq_refl eq_refl) as (_ & _ & Hu).
  split; [| split].
  - destruct Ha as (z & Hz & Hadd & _). now exists z.
  - destruct Hm as (u & Hu' & Hmul & _).
    + intros k [= <-]. lia.
    + now exists u.
  - apply Hu. exists 1. split; [reflexivity | lia].
Defined.

(** C8 as stated fails in a family with a single integer bit: the
    number with scaled value [3] exists there, but the family has no
    unity, so the product with it is the overflow error. *)
Lemma unity_counterexample :
  FXfamily_init 4 (Some 1) = Ok fam4_1 /\
  FXnum_init (PyInt 0) fam4_1 (Some 3) = Ok (mkFXnum fam4_1 3) /\
  (u <- unity fam4_1 ;;
   p <- FXnum_mul (mkFXnum fam4_1 3) (PyFX u) ;;
   FXnum_eq p (PyFX (mkFXnum fam4_1 3))) = Raise FXoverflowError.
Proof.
  repeat split.
Qed.

(** ** FXfamily.from2c *)

Lemma from2c_bits (self : FXfamily) (n k : Z) (n_intbits : option Z) :
  match n_intbits with Some j => Some j | None => integer_bits self end
    = Some k ->
  0 <= k ->
  from2c self n n_intbits =
  if (n <? 0) || (n >=? scale self * 2 ^ k) then Raise FXdomainError
  else _rawbuild self
         (if n <? Z.shiftr (scale self * 2 ^ k) 1 then n
          else n - scale self * 2 ^ k).
Proof.
  intros Hbits Hk. unfold from2c. rewrite Hbits.
  unfold py_shl_opt. rewrite py_shl_nonneg by assumption. reflexivity.
Qed.

(** C9, as the code has it.  Without an integer-bit count, neither given
    nor known to the family, decoding fails with the family error; with
    a count [k], raw bits outside [0, 2 ^ (fraction_bits + k)) fail with
    the domain error, and raw bits inside are decoded to [n] below
    [2 ^ (fraction_bits + k - 1)] and to [n - 2 ^ (fraction_bits + k)]
    from there on, and the decoded value goes through the validator of
    the family.  It passes when the family has no limit or one that is
    not below [k], in particular when the count is the family's own; a
    larger count than the family's can decode to a value that the
    validator refuses. *)
Theorem from2c_cases (n_bits : Z) (n_intbits : option Z) (fam : FXfamily)
    (n : Z) (override : option Z) :
  FXfamily_init n_bits n_intbits = Ok fam ->
  (override = None -> n_intbits = None ->
     from2c fam n override = Raise FXfamilyError) /\
  (forall k,
     match override with Some j => Some j | None => n_intbits end = Some k ->
     0 <= k ->
     ((n < 0 \/ 2 ^ (n_bits + k) <= n) ->
        from2c fam n override = Raise FXdomainError) /\
     (0 <= n < 2 ^ (n_bits + k) ->
        let sv := if n <? 2 ^ (n_bits + k - 1) then n
                  else n - 2 ^ (n_bits + k) in
        from2c fam n override = _rawbuild fam sv /\
        ((n_intbits = None \/ exists j, n_intbits = Some j /\ k <= j) ->
           from2c fam n override = Ok (mkFXnum fam sv)))).
Proof.
  intros Hfam. destruct (FXfamily_init_inv _ _ _ Hfam) as [Hn Hrec].
  assert (Hscale : scale fam = 2 ^ n_bits) by (now subst fam).
  assert (Hib : integer_bits fam = n_intbits) by (now subst fam).
  assert (Hth : thresh fam = thresh_of n_bits n_intbits) by (now subst fam).
  split.
  - intros -> ->. unfold from2c. rewrite Hib. reflexivity.
  - intros k Hbits Hk.
    pose proof (pow2_pos (n_bits + k - 1) ltac:(lia)) as Hp.
    pose proof (pow2_half (n_bits + k) ltac:(lia)) as Hh.
    assert (Hm : scale fam * 2 ^ k = 2 ^ (n_bits + k))
      by (rewrite Hscale, Z.pow_add_r by lia; reflexivity).
    assert (Hm1 : Z.shiftr (2 ^ (n_bits + k)) 1 = 2 ^ (n_bits + k - 1)).
    { rewrite Z.shiftr_div_pow2 by lia. change (2 ^ 1) with 2.
      rewrite Hh, Z.mul_comm. apply Z.div_mul. lia. }
    rewrite (from2c_bits fam n k override)
      by (try rewrite Hib; assumption).
    rewrite Hm, Hm1. split.
    + intros Hout.
      destruct (Z.ltb_spec n 0), (Z.geb_spec n (2 ^ (n_bits + k)));
        cbn [orb]; try reflexivity; lia.
    + intros Hin. cbv zeta.
      destruct (Z.ltb_spec n 0), (Z.geb_spec n (2 ^ (n_bits + k)));
        cbn [orb]; try lia.
      split; [reflexivity |].
      intros Hfit. apply _rawbuild_Ok. unfold in_range. rewrite Hth.
      unfold thresh_of.
      destruct Hfit as [-> | (j & -> & Hj)]; [trivial |].
      destruct (Z.ltb_spec (n_bits + j - 1) 0); [trivial |].
      assert (2 ^ (n_bits + k - 1) <= 2 ^ (n_bits + j - 1))
        by (apply Z.pow_le_mono_r; lia).
      destruct (Z.ltb_spec n (2 ^ (n_bits + k - 1))); lia.
Qed.

Lemma from2c_cases_witness :
  from2c fam4 5 None = Raise FXfamilyError /\
  from2c fam4_2 64 None = Raise FXdomainError /\
  from2c fam4_2 31 None = Ok (mkFXnum fam4_2 31) /\
  from2c fam4_2 32 None = Ok (mkFXnum fam4_2 (-32)).
Proof.
  split; [| split; [| split]].
  - destruct (from2c_cases 4 None fam4 5 None eq_refl) as (H & _).
    now apply H.
  - destruct (from2c_cases 4 (Some 2) fam4_2 64 None eq_refl) as (_ & H).
    destruct (H 2 eq_refl ltac:(lia)) as (H' & _).
    apply H'. right. cbn. lia.
  - destruct (from2c_cases 4 (Some 2) fam4_2 31 None eq_refl) as (_ & H).
    destruct (H 2 eq_refl ltac:(lia)) as (_ & H').
    destruct H' as (_ & H'); [cbn; lia |].
    apply H'. right. exists 2. split; [reflexivity | lia].
  - destruct (from2c_cases 4 (Some 2) fam4_2 32 None eq_refl) as (_ & H).
    destruct (H 2 eq_refl ltac:(lia)) as (_ & H').
    destruct H' as (_ & H'); [cbn; lia |].
    apply H'. right. exists 2. split; [reflexivity | lia].
Defined.

(** C9 as stated fails when the given count exceeds the family's: in the
    family with 4 fractional and 2 integer bits, the raw bits [100] read
    with 8 integer bits are inside [0, 2 ^ 12) and below [2 ^ 11], but
    the decoded value [100] is refused by the family's validator. *)
Lemma from2c_counterexample :
  FXfamily_init 4 (Some 2) = Ok fam4_2 /\
  0 <= 100 < 2 ^ (4 + 8) /\ 100 < 2 ^ (4 + 8 - 1) /\
  from2c fam4_2 100 (Some 8) = Raise FXoverflowError /\
  from2c fam4_2 100 (Some 8) <> Ok (mkFXnum fam4_2 100).
Proof.
  split; [reflexivity | split; [cbn; lia | split; [cbn; lia | split]]].
  - reflexivity.
  - discriminate.
Qed.

(** A negative count makes the shift fail, which the bare handler turns
    into the family error as well. *)
Remark from2c_negative_bits (self : FXfamily) (n k : Z) :
  k < 0 -> from2c self n (Some k) = Raise FXfamilyError.
Proof.
  intros Hk. unfold from2c, py_shl_opt. now rewrite py_shl_neg.
Qed.

(** ** Family comparison *)

(** C10: compared with an object that has neither of the attributes
    [fraction_bits] and [integer_bits], both comparison operators reach
    their handler, whose [return false] and [return true] name nothing
    that is defined: the comparison ends in a NameError and returns no
    boolean. *)
Theorem family_compare_NameError (self : FXfamily) (other : pyobj) :
  other "fraction_bits"%string = None ->
  other "integer_bits"%string = None ->
  FXfamily_eq self other = Raise NameError /\
  FXfamily_ne self other = Raise NameError /\
  (forall b, FXfamily_eq self other <> Ok b) /\
  (forall b, FXfamily_ne self other <> Ok b).
Proof.
  intros Hf Hi. unfold FXfamily_eq, FXfamily_ne, getattr.
  rewrite Hf. cbn. repeat split; discriminate.
Qed.

Lemma family_compare_NameError_witness :
  FXfamily_eq fam4 (fun _ => None) = Raise NameError /\
  FXfamily_ne fam4 (fun _ => None) = Raise NameError.
Proof.
  destruct (family_compare_NameError fam4 (fun _ => None) eq_refl eq_refl)
    as (He & Hn & _).
  split; assumption.
Defined.

(** With families the comparisons are total, and an object that has
    [fraction_bits] only is still answered when that attribute differs,
    since the second attribute is then never read. *)
Remark family_compare_short_circuit (self : FXfamily) (other : pyobj) (z : Z) :
  other "fraction_bits"%string = Some (AInt z) ->
  z <> fraction_bits self ->
  FXfamily_eq self other = Ok false /\ FXfamily_ne self other = Ok true.
Proof.
  intros Hf Hz. unfold FXfamily_eq, FXfamily_ne, getattr.
  rewrite Hf. cbn.
  destruct (Z.eqb_spec (fraction_bits self) z); [congruence |].
  split; reflexivity.
Qed.

(** * Further properties *)

(** ** Casting to an integer *)

Lemma FXnum_int_quot (x : FXnum) :
  0 < scale (family x) ->
  FXnum_int x = Ok (Z.quot (scaledval x) (scale (family x))).
Proof.
  intros Hs. unfold FXnum_int, py_floordiv.
  destruct (Z.eqb_spec (scale (family x)) 0); [lia |].
  destruct (Z.geb_spec (scaledval x) 0) as [Hpos | Hneg]; f_equal.
  - symmetry. apply Z.quot_div_nonneg; lia.
  - set (s := scale (family x)) in *. set (v := scaledval x) in *.
    rewrite <- (Z.opp_involutive v) at 2.
    rewrite Z.quot_opp_l by lia.
    rewrite Z.quot_div_nonneg by lia.
    symmetry. apply Z.div_unique with (r := v + s - 1 + s * ((- v) / s)).
    + left.
      pose proof (Z.mul_div_le (- v) s Hs).
      pose proof (Z.mul_succ_div_gt (- v) s Hs). lia.
    + lia.
Qed.

(** [int(x)] is the scaled value divided by the scale and truncated
    toward zero: the floor for a non-negative number, the ceiling for a
    negative one, so the quotient [Z.quot] of the two, whose magnitude
    is the floor of the magnitude of the value. *)
Theorem FXnum_int_truncates (x : FXnum) :
  0 < scale (family x) ->
  exists n, FXnum_int x = Ok n /\
    n = Z.quot (scaledval x) (scale (family x)) /\
    Z.abs n = Z.abs (scaledval x) / scale (family x) /\
    (0 <= scaledval x -> 0 <= n) /\ (scaledval x <= 0 -> n <= 0).
Proof.
  intros Hs. eexists. split; [now apply FXnum_int_quot |].
  split; [reflexivity |].
  rewrite <- Z.quot_abs by lia. rewrite (Z.abs_eq (scale _)) by lia.
  split; [apply Z.quot_div_nonneg; lia |].
  split; intros H.
  - apply Z.quot_pos; lia.
  - rewrite <- (Z.opp_involutive (scaledval x)), Z.quot_opp_l by lia.
    assert (0 <= Z.quot (- scaledval x) (scale (family x)))
      by (apply Z.quot_pos; lia).
    lia.
Qed.

Lemma FXnum_int_truncates_witness :
  exists n, FXnum_int (mkFXnum fam4 (-37)) = Ok n /\ n = Z.quot (-37) 16.
Proof.
  destruct (FXnum_int_truncates (mkFXnum fam4 (-37)) eq_refl)
    as (n & Hn & Hq & _).
  exists n. split; assumption.
Defined.

(** An integer that fits the family survives the way into a number and
    back. *)
Theorem FXnum_int_of_int (n_bits : Z) (n_intbits : option Z) (fam : FXfamily)
    (n : Z) :
  FXfamily_init n_bits n_intbits = Ok fam ->
  validate fam (n * scale fam) = Ok tt ->
  exists x, FXnum_init (PyInt n) fam None = Ok x /\
            scaledval x = n * 2 ^ n_bits /\
            FXnum_int x = Ok n.
Proof.
  intros Hfam Hv. destruct (FXfamily_init_inv _ _ _ Hfam) as [Hn Hrec].
  assert (Hscale : scale fam = 2 ^ n_bits) by (now subst fam).
  pose proof (pow2_pos n_bits ltac:(lia)) as Hp.
  exists (mkFXnum fam (n * scale fam)). split; [| split].
  - unfold FXnum_init. now rewrite Hv.
  - cbn. now rewrite Hscale.
  - rewrite FXnum_int_quot by (cbn; lia). cbn [family scaledval].
    f_equal. apply Z.quot_mul. lia.
Qed.

Lemma FXnum_int_of_int_witness :
  exists x, FXnum_init (PyInt (-8)) fam4_4 None = Ok x /\
            scaledval x = (-8) * 2 ^ 4 /\
            FXnum_int x = Ok (-8).
Proof.
  apply (FXnum_int_of_int 4 (Some 4) fam4_4 (-8)); reflexivity.
Defined.

(** ** Operands of different families *)

Lemma FXfamily_ne_differ (f g : FXfamily) :
  fraction_bits f <> fraction_bits g \/ integer_bits f <> integer_bits g ->
  FXfamily_ne f (obj_of_family g) = Ok true.
Proof.
  intros H. rewrite FXfamily_ne_family. f_equal.
  destruct (Z.eqb_spec (fraction_bits f) (fraction_bits g)) as [Hf | Hf];
    [| reflexivity].
  destruct H as [H | H]; [contradiction |]. cbn.
  destruct (integer_bits f) as [a |], (integer_bits g) as [b |]; cbn;
    try reflexivity; try congruence.
  destruct (Z.eqb_spec a b); [congruence | reflexivity].
Qed.

(** No binary operator and no comparison combines numbers of families
    that differ in their fractional or in their integer bits: each of
    them fails with the family error, before it looks at the values, so
    even a division by a zero of another family is a family error. *)
Theorem mixed_families_refused (x y : FXnum) :
  fraction_bits (family x) <> fraction_bits (family y) \/
  integer_bits (family x) <> integer_bits (family y) ->
  FXnum_add x (PyFX y) = Raise FXfamilyError /\
  FXnum_sub x (PyFX y) = Raise FXfamilyError /\
  FXnum_mul x (PyFX y) = Raise FXfamilyError /\
  FXnum_truediv x (PyFX y) = Raise FXfamilyError /\
  FXnum_eq x (PyFX y) = Raise FXfamilyError /\
  FXnum_ne x (PyFX y) = Raise FXfamilyError /\
  FXnum_lt x (PyFX y) = Raise FXfamilyError /\
  FXnum_le x (PyFX y) = Raise FXfamilyError /\
  FXnum_gt x (PyFX y) = Raise FXfamilyError /\
  FXnum_ge x (PyFX y) = Raise FXfamilyError.
Proof.
  intros H.
  assert (Hc : _CastOrFail_ x (PyFX y) = Raise FXfamilyError)
    by (unfold _CastOrFail_; now rewrite FXfamily_ne_differ).
  unfold FXnum_add, FXnum_sub, FXnum_mul, FXnum_truediv, FXnum_eq, FXnum_ne,
    FXnum_lt, FXnum_le, FXnum_gt, FXnum_ge.
  rewrite Hc. cbn. repeat split.
Qed.

Lemma mixed_families_refused_witness :
  FXnum_add (mkFXnum fam4 16) (PyFX (mkFXnum fam8 256))
    = Raise FXfamilyError /\
  FXnum_truediv (mkFXnum fam4 16) (PyFX (mkFXnum fam4_4 0))
    = Raise FXfamilyError.
Proof.
  split.
  - apply (mixed_families_refused (mkFXnum fam4 16) (mkFXnum fam8 256)).
    left. discriminate.
  - apply (mixed_families_refused (mkFXnum fam4 16) (mkFXnum fam4_4 0)).
    right. discriminate.
Defined.

(** ** Comparisons *)

Lemma Qle_same_scale (a b s : Z) :
  0 < s ->
  (inject_Z a / inject_Z s <= inject_Z b / inject_Z s)%Q <-> a <= b.
Proof.
  intros Hs. destruct s as [| p | p]; try lia.
  unfold Qle, Qdiv, Qinv, Qmult, inject_Z. cbn [Qnum Qden].
  rewrite !Z.mul_1_r, !Pos.mul_1_l. nia.
Qed.

Lemma Qle_bool_same_scale (a b s : Z) :
  0 < s ->
  Qle_bool (inject_Z a / inject_Z s) (inject_Z b / inject_Z s) = (a <=? b).
Proof.
  intros Hs. apply eq_true_iff_eq.
  rewrite Qle_bool_iff, Qle_same_scale, Z.leb_le by assumption. tauto.
Qed.

Lemma Qeq_bool_same_scale (a b s : Z) :
  0 < s ->
  Qeq_bool (inject_Z a / inject_Z s) (inject_Z b / inject_Z s) = (a =? b).
Proof.
  intros Hs. apply eq_true_iff_eq.
  rewrite Qeq_bool_iff, Z.eqb_eq. split.
  - intros H. apply Z.le_antisymm; apply (Qle_same_scale _ _ s Hs);
      rewrite H; apply Qle_refl.
  - intros ->. reflexivity.
Qed.

(** Among the numbers of one family the six comparisons decide the
    order and the equality of the exact values, and [!=] is the negation
    of [==]. *)
Theorem comparisons_decide_values (x y : FXnum) :
  family y = family x -> 0 < scale (family x) ->
  FXnum_eq x (PyFX y) = Ok (Qeq_bool (value x) (value y)) /\
  FXnum_ne x (PyFX y) = Ok (negb (Qeq_bool (value x) (value y))) /\
  FXnum_le x (PyFX y) = Ok (Qle_bool (value x) (value y)) /\
  FXnum_lt x (PyFX y) = Ok (negb (Qle_bool (value y) (value x))) /\
  FXnum_ge x (PyFX y) = Ok (Qle_bool (value y) (value x)) /\
  FXnum_gt x (PyFX y) = Ok (negb (Qle_bool (value x) (value y))).
Proof.
  intros Hf Hs.
  unfold FXnum_eq, FXnum_ne, FXnum_le, FXnum_lt, FXnum_ge, FXnum_gt.
  rewrite _CastOrFail_same by assumption. cbn [bind].
  unfold value. rewrite Hf.
  rewrite !Qle_bool_same_scale, Qeq_bool_same_scale by assumption.
  rewrite FXfamily_eq_family, Z.eqb_refl, pyattr_eqb_refl.
  set (a := scaledval x). set (b := scaledval y).
  repeat split; f_equal.
  - destruct (a =? b); reflexivity.
  - apply eq_true_iff_eq. rewrite Z.ltb_lt, negb_true_iff, Z.leb_gt. tauto.
  - apply eq_true_iff_eq. rewrite Z.geb_le, Z.leb_le. tauto.
  - apply eq_true_iff_eq.
    rewrite Z.gtb_ltb, Z.ltb_lt, negb_true_iff, Z.leb_gt. tauto.
Qed.

Lemma comparisons_decide_values_witness :
  FXnum_lt (mkFXnum fam4 (-37)) (PyFX (mkFXnum fam4 5)) = Ok true /\
  FXnum_ne (mkFXnum fam4 5) (PyFX (mkFXnum fam4 5)) = Ok false.
Proof.
  split.
  - apply (comparisons_decide_values (mkFXnum fam4 (-37)) (mkFXnum fam4 5));
      reflexivity.
  - apply (comparisons_decide_values (mkFXnum fam4 5) (mkFXnum fam4 5));
      reflexivity.
Defined.

(** ** Negation and modulus *)

(** In a family with a limit on its integer bits the range has one more
    negative value than positive ones.  That lowest value has neither a
    negation nor a modulus: both end in the overflow error.  Every other
    number of the family has both, and negating twice gives it back. *)
Theorem neg_abs_range (x : FXnum) (t : Z) :
  thresh (family x) = Some t ->
  validate (family x) (scaledval x) = Ok tt ->
  (scaledval x = - t ->
     FXnum_neg x = Raise FXoverflowError /\
     FXnum_abs x = Raise FXoverflowError) /\
  (scaledval x <> - t ->
     FXnum_neg x = Ok (mkFXnum (family x) (- scaledval x)) /\
     FXnum_abs x = Ok (mkFXnum (family x) (Z.abs (scaledval x))) /\
     (n <- FXnum_neg x ;; FXnum_neg n) = Ok x).
Proof.
  intros Ht Hv. destruct x as [fam sv]. cbn [family scaledval] in *.
  apply validate_in_range in Hv. unfold in_range in Hv. rewrite Ht in Hv.
  unfold FXnum_abs, FXnum_neg. cbn [family scaledval]. split.
  - intros ->.
    assert (Hout : ~ in_range fam (- - t))
      by (unfold in_range; rewrite Ht; lia).
    rewrite (_rawbuild_overflow _ _ Hout).
    destruct (Z.ltb_spec (- t) 0); [tauto | lia].
  - intros Hne.
    assert (Hin : in_range fam (- sv)) by (unfold in_range; rewrite Ht; lia).
    assert (Hin' : in_range fam (- - sv))
      by (unfold in_range; rewrite Ht; lia).
    rewrite (_rawbuild_Ok _ _ Hin). cbn [bind family scaledval].
    rewrite (_rawbuild_Ok _ _ Hin'), Z.opp_involutive.
    repeat split.
    destruct (Z.ltb_spec sv 0).
    + now rewrite Z.abs_neq by lia.
    + now rewrite Z.abs_eq by lia.
Qed.

Lemma neg_abs_range_witness :
  FXnum_abs (mkFXnum fam4_4 (-128)) = Raise FXoverflowError /\
  FXnum_abs (mkFXnum fam4_4 (-127)) = Ok (mkFXnum fam4_4 127).
Proof.
  split.
  - apply (neg_abs_range (mkFXnum fam4_4 (-128)) 128); reflexivity.
  - apply (neg_abs_range (mkFXnum fam4_4 (-127)) 128);
      [reflexivity | reflexivity | discriminate].
Defined.

(** ** Addition and subtraction *)

(** Addition of two numbers of one family is commutative, overflow
    included; subtracting the second operand from a sum gives the first
    one back; and a number minus itself is zero. *)
Theorem add_sub_inverse (x y : FXnum) :
  family y = family x ->
  validate (family x) (scaledval x) = Ok tt ->
  FXnum_add x (PyFX y) = FXnum_add y (PyFX x) /\
  (forall s, FXnum_add x (PyFX y) = Ok s -> FXnum_sub s (PyFX y) = Ok x) /\
  FXnum_sub x (PyFX x) = Ok (mkFXnum (family x) 0).
Proof.
  intros Hf Hv. destruct x as [fam a], y as [fam' b].
  cbn [family scaledval] in *. subst fam'.
  unfold FXnum_add, FXnum_sub.
  rewrite !_CastOrFail_same by reflexivity. cbn [bind family scaledval].
  split; [now rewrite Z.add_comm | split].
  - intros s Hs. apply _rawbuild_inv in Hs as [-> _].
    rewrite _CastOrFail_same by reflexivity. cbn [bind family scaledval].
    replace (a + b - b) with a by lia.
    unfold _rawbuild. now rewrite Hv.
  - rewrite Z.sub_diag. apply _rawbuild_Ok.
    apply validate_in_range in Hv. unfold in_range in *.
    destruct (thresh fam); [lia | trivial].
Qed.

Lemma add_sub_inverse_witness :
  FXnum_add (mkFXnum fam4_4 100) (PyFX (mkFXnum fam4_4 27))
    = FXnum_add (mkFXnum fam4_4 27) (PyFX (mkFXnum fam4_4 100)) /\
  FXnum_sub (mkFXnum fam4_4 127) (PyFX (mkFXnum fam4_4 27))
    = Ok (mkFXnum fam4_4 100) /\
  FXnum_sub (mkFXnum fam4_4 100) (PyFX (mkFXnum fam4_4 100))
    = Ok (mkFXnum fam4_4 0).
Proof.
  destruct (add_sub_inverse (mkFXnum fam4_4 100) (mkFXnum fam4_4 27)
              eq_refl eq_refl) as (Hc & Hs & Hz).
  split; [exact Hc | split; [| exact Hz]].
  apply Hs. reflexivity.
Defined.

(** The integer on the left: [n + x] and [n * x] are [x + n] and
    [x * n], whatever they end in. *)
Theorem reflected_commute (x : FXnum) (n : Z) :
  FXnum_radd x (PyInt n) = FXnum_add x (PyInt n) /\
  FXnum_rmul x (PyInt n) = FXnum_mul x (PyInt n).
Proof.
  unfold FXnum_radd, FXnum_rmul, FXnum_add, FXnum_mul.
  change (_CastOrFail_ x (PyInt n))
    with (FXnum_init (PyInt n) (family x) None).
  destruct (FXnum_init (PyInt n) (family x) None) as [o | e] eqn:Ho;
    cbn [bind]; [| split; reflexivity].
  apply FXnum_init_inv in Ho as [Ho _].
  rewrite _CastOrFail_same by congruence. cbn [bind]. rewrite Ho.
  split.
  - now rewrite Z.add_comm.
  - now rewrite (Z.mul_comm (scaledval o)).
Qed.

(** ** Multiplication *)

Lemma round_half_up_quotient (n h : Z) :
  0 < h ->
  round_half_up (inject_Z n / inject_Z (2 * h)) = (n + h) / (2 * h).
Proof.
  intros Hh. unfold round_half_up.
  assert (E : (inject_Z n / inject_Z (2 * h) + (1 # 2) ==
               inject_Z (2 * (n + h)) / inject_Z (2 * (2 * h)))%Q).
  { rewrite !inject_Z_mult, inject_Z_plus.
    change (inject_Z 2) with 2%Q. change (1 # 2)%Q with (/ 2)%Q.
    field. apply inject_Z_nonzero. lia. }
  rewrite E, Qfloor_quotient by lia.
  apply Z.div_mul_cancel_l; lia.
Qed.

(** The product of two numbers of one family is built from the exact
    product of the scaled values, divided by the scale and rounded to
    the nearest integer, halves upwards: the scaled value is off the
    exact quotient by at most half a unit.  The product is commutative. *)
Theorem mul_rounds_half_up (n_bits : Z) (n_intbits : option Z)
    (fam : FXfamily) (a b : FXnum) :
  FXfamily_init n_bits n_intbits = Ok fam ->
  family a = fam -> family b = fam ->
  let q := round_half_up
             (inject_Z (scaledval a * scaledval b) / inject_Z (scale fam)) in
  FXnum_mul a (PyFX b) = _rawbuild fam q /\
  - scale fam <= 2 * (scaledval a * scaledval b - q * scale fam)
    < scale fam /\
  FXnum_mul a (PyFX b) = FXnum_mul b (PyFX a).
Proof.
  intros Hfam Ha Hb. destruct (FXfamily_init_inv _ _ _ Hfam) as [Hn Hrec].
  assert (Hscale : scale fam = 2 * 2 ^ (n_bits - 1))
    by (rewrite Hrec; cbn [scale]; now apply pow2_half).
  assert (Hround : _roundup fam = 2 ^ (n_bits - 1))
    by (rewrite Hrec; reflexivity).
  pose proof (pow2_pos (n_bits - 1) ltac:(lia)) as Hp.
  cbv zeta. rewrite Hscale, round_half_up_quotient by assumption.
  unfold FXnum_mul. rewrite !_CastOrFail_same by congruence.
  cbn [bind]. rewrite Ha, Hb, Hscale, Hround. unfold py_floordiv.
  destruct (Z.eqb_spec (2 * 2 ^ (n_bits - 1)) 0); [lia |]. cbn [bind].
  split; [reflexivity | split].
  - set (h := 2 ^ (n_bits - 1)) in *.
    set (p := scaledval a * scaledval b).
    pose proof (Z.mul_div_le (p + h) (2 * h) ltac:(lia)).
    pose proof (Z.mul_succ_div_gt (p + h) (2 * h) ltac:(lia)). lia.
  - now rewrite (Z.mul_comm (scaledval a)).
Qed.

Lemma mul_rounds_half_up_witness :
  FXnum_mul (mkFXnum fam4 5) (PyFX (mkFXnum fam4 8)) = Ok (mkFXnum fam4 3) /\
  FXnum_mul (mkFXnum fam4 5) (PyFX (mkFXnum fam4 8))
    = FXnum_mul (mkFXnum fam4 8) (PyFX (mkFXnum fam4 5)).
Proof.
  destruct (mul_rounds_half_up 4 None fam4 (mkFXnum fam4 5) (mkFXnum fam4 8)
              eq_refl eq_refl eq_refl) as (H & _ & Hc).
  split; [exact H | exact Hc].
Defined.

(** ** Shifts, and division by an integer *)

(** The facts about a constructed family that the proofs below use. *)
Lemma family_facts (n_bits : Z) (n_intbits : option Z) (fam : FXfamily) :
  FXfamily_init n_bits n_intbits = Ok fam ->
  1 <= n_bits /\ 0 < 2 ^ (n_bits - 1) /\
  scale fam = 2 * 2 ^ (n_bits - 1) /\ _roundup fam = 2 ^ (n_bits - 1) /\
  fraction_bits fam = n_bits /\ integer_bits fam = n_intbits /\
  thresh fam = thresh_of n_bits n_intbits.
Proof.
  intros H. apply FXfamily_init_inv in H as [Hn ->].
  cbn [scale _roundup fraction_bits integer_bits thresh].
  split; [exact Hn | split; [apply pow2_pos; lia | split]].
  - now apply pow2_half.
  - repeat split.
Qed.

(** When the integer [2 ^ k] fits the family, shifting a number by [k]
    bits is multiplying it by that integer, or dividing it: the bias
    that the division adds is too small to lift a quotient by a power
    of two over the next integer. *)
Theorem shift_is_mul_div (n_bits : Z) (n_intbits : option Z)
    (fam : FXfamily) (x : FXnum) (k : Z) :
  FXfamily_init n_bits n_intbits = Ok fam ->
  family x = fam -> 0 <= k ->
  validate fam (2 ^ k * scale fam) = Ok tt ->
  FXnum_mul x (PyInt (2 ^ k)) = FXnum_lshift x k /\
  FXnum_truediv x (PyInt (2 ^ k)) = FXnum_rshift x k.
Proof.
  intros Hfam Hx Hk Hv.
  destruct (family_facts _ _ _ Hfam) as (Hn & Hp & Hs & Hr & _).
  pose proof (pow2_pos k Hk) as Hpk.
  unfold FXnum_mul, FXnum_truediv, FXnum_lshift, FXnum_rshift, _CastOrFail_,
    FXnum_init.
  rewrite Hx, Hv. cbn [bind scaledval family].
  rewrite py_shl_nonneg, py_shr_nonneg by assumption. cbn [bind].
  rewrite Hr, Hs. unfold py_floordiv. set (h := 2 ^ (n_bits - 1)) in *.
  destruct (Z.eqb_spec (2 * h) 0); [lia |].
  destruct (Z.eqb_spec (2 ^ k * (2 * h)) 0); [nia |]. cbn [bind].
  split; f_equal.
  - replace (scaledval x * (2 ^ k * (2 * h)) + h)
      with (scaledval x * 2 ^ k * (2 * h) + h) by ring.
    rewrite Z.div_add_l, (Z.div_small h) by lia. lia.
  - rewrite (Z.mul_comm (2 ^ k)), <- Z.div_div by lia.
    rewrite Z.div_add_l, (Z.div_small h) by lia.
    now rewrite Z.add_0_r.
Qed.

Lemma shift_is_mul_div_witness :
  FXnum_mul (mkFXnum fam4_4 (-5)) (PyInt (2 ^ 2))
    = FXnum_lshift (mkFXnum fam4_4 (-5)) 2 /\
  FXnum_truediv (mkFXnum fam4_4 (-5)) (PyInt (2 ^ 2))
    = FXnum_rshift (mkFXnum fam4_4 (-5)) 2.
Proof.
  apply (shift_is_mul_div 4 (Some 4) fam4_4 (mkFXnum fam4_4 (-5)) 2);
    [reflexivity | reflexivity | lia | reflexivity].
Defined.

(** Division by the integer one, or by the family's unity, returns the
    number; division by the integer zero is the host's division fault,
    which the module does not turn into an error of its own. *)
Theorem truediv_one_zero (n_bits : Z) (n_intbits : option Z)
    (fam : FXfamily) (x : FXnum) :
  FXfamily_init n_bits n_intbits = Ok fam ->
  family x = fam ->
  validate fam (scaledval x) = Ok tt ->
  FXnum_truediv x (PyInt 0) = Raise ZeroDivisionError /\
  (validate fam (scale fam) = Ok tt ->
     FXnum_truediv x (PyInt 1) = Ok x /\
     (u <- unity fam ;; FXnum_truediv x (PyFX u)) = Ok x).
Proof.
  intros Hfam Hx Hv. destruct x as [fx sv]. cbn [family scaledval] in *.
  subst fx.
  destruct (family_facts _ _ _ Hfam) as (Hn & Hp & Hs & Hr & _).
  pose proof (zero_Ok _ _ _ Hfam) as Hz. unfold zero in Hz.
  split.
  - unfold FXnum_truediv, _CastOrFail_. cbn [family]. rewrite Hz.
    reflexivity.
  - intros Hu.
    assert (Hone : FXnum_init (PyInt 1) fam None = Ok (mkFXnum fam (scale fam)))
      by (unfold FXnum_init; rewrite Z.mul_1_l, Hu; reflexivity).
    assert (Hdiv : FXnum_truediv (mkFXnum fam sv)
                     (PyFX (mkFXnum fam (scale fam))) = Ok (mkFXnum fam sv)).
    { unfold FXnum_truediv. rewrite _CastOrFail_same by reflexivity.
      cbn [bind family scaledval]. rewrite Hr, Hs. unfold py_floordiv.
      destruct (Z.eqb_spec (2 * 2 ^ (n_bits - 1)) 0); [lia |].
      cbn [bind]. rewrite Z.div_add_l by lia.
      rewrite (Z.div_small (2 ^ (n_bits - 1))), Z.add_0_r by lia.
      unfold _rawbuild. now rewrite Hv. }
    split.
    + unfold FXnum_truediv, _CastOrFail_. cbn [family]. rewrite Hone.
      cbn [bind]. rewrite <- Hdiv. unfold FXnum_truediv.
      now rewrite _CastOrFail_same by reflexivity.
    + unfold unity. rewrite Hone. cbn [bind]. exact Hdiv.
Qed.

Lemma truediv_one_zero_witness :
  FXnum_truediv (mkFXnum fam4_4 (-37)) (PyInt 0) = Raise ZeroDivisionError /\
  FXnum_truediv (mkFXnum fam4_4 (-37)) (PyInt 1) = Ok (mkFXnum fam4_4 (-37)).
Proof.
  destruct (truediv_one_zero 4 (Some 4) fam4_4 (mkFXnum fam4_4 (-37))
              eq_refl eq_refl eq_refl) as (Hz & Ho).
  split; [exact Hz |]. apply Ho. reflexivity.
Defined.

(** A number divided by itself.  The bias of the division is half a
    scale whatever the divisor is, so the quotient is the unity only for
    a number above one half; a smaller positive number gives more, and a
    negative number gives less than the unity. *)
Theorem truediv_self (n_bits : Z) (n_intbits : option Z)
    (fam : FXfamily) (x : FXnum) :
  FXfamily_init n_bits n_intbits = Ok fam ->
  family x = fam -> scaledval x <> 0 ->
  exists q, FXnum_truediv x (PyFX x) = _rawbuild fam q /\
    (scale fam < 2 * scaledval x -> q = scale fam) /\
    (0 < 2 * scaledval x <= scale fam -> scale fam < q) /\
    (scaledval x < 0 -> q < scale fam).
Proof.
  intros Hfam Hx Hnz.
  destruct (family_facts _ _ _ Hfam) as (Hn & Hp & Hs & Hr & _).
  exists ((scaledval x * scale fam + _roundup fam) / scaledval x). split.
  - unfold FXnum_truediv. rewrite _CastOrFail_same by reflexivity.
    cbn [bind]. rewrite Hx. unfold py_floordiv.
    destruct (Z.eqb_spec (scaledval x) 0); [contradiction | reflexivity].
  - rewrite Hr, Hs. set (h := 2 ^ (n_bits - 1)) in *.
    set (v := scaledval x) in *.
    rewrite (Z.mul_comm v), Z.div_add_l by assumption.
    split; [| split].
    + intros Hbig. rewrite Z.div_small by lia. lia.
    + intros Hsmall.
      assert (1 <= h / v) by (apply Z.div_le_lower_bound; lia). lia.
    + intros Hneg.
      pose proof (Z.div_mod h v ltac:(lia)).
      pose proof (Z.mod_neg_bound h v Hneg).
      assert (h / v < 0) by nia. lia.
Qed.

Lemma truediv_self_witness :
  exists q, FXnum_truediv (mkFXnum fam4 (-16)) (PyFX (mkFXnum fam4 (-16)))
            = _rawbuild fam4 q /\ q < 16.
Proof.
  destruct (truediv_self 4 None fam4 (mkFXnum fam4 (-16)) eq_refl eq_refl
              ltac:(discriminate)) as (q & Hq & _ & _ & Hneg).
  exists q. split; [exact Hq |]. apply Hneg. reflexivity.
Defined.

(** ** Families *)

Lemma attr_of_opt_eqb (a b : option Z) :
  pyattr_eqb (attr_of_opt a) (attr_of_opt b) = true <-> a = b.
Proof.
  destruct a as [x |], b as [y |]; cbn; split; intros H;
    try discriminate; try reflexivity.
  - apply Z.eqb_eq in H. congruence.
  - injection H as ->. apply Z.eqb_refl.
Qed.

(** Two constructed families compare equal exactly when they were made
    from the same two bit counts, and then they are the same family;
    [!=] answers the opposite of [==]. *)
Theorem family_equality (fb1 fb2 : Z) (ib1 ib2 : option Z) (f g : FXfamily) :
  FXfamily_init fb1 ib1 = Ok f -> FXfamily_init fb2 ib2 = Ok g ->
  exists b, FXfamily_eq f (obj_of_family g) = Ok b /\
            FXfamily_ne f (obj_of_family g) = Ok (negb b) /\
            (b = true <-> fb1 = fb2 /\ ib1 = ib2) /\
            (b = true <-> f = g).
Proof.
  intros Hf Hg.
  apply FXfamily_init_inv in Hf as [_ ->].
  apply FXfamily_init_inv in Hg as [_ ->].
  rewrite FXfamily_eq_family, FXfamily_ne_family.
  cbn [fraction_bits integer_bits].
  eexists. split; [reflexivity | split; [| split]].
  - now rewrite negb_andb.
  - rewrite andb_true_iff, Z.eqb_eq, attr_of_opt_eqb. tauto.
  - rewrite andb_true_iff, Z.eqb_eq, attr_of_opt_eqb. split.
    + intros [-> ->]. reflexivity.
    + intros H. injection H as -> ->. split; reflexivity.
Qed.

Lemma family_equality_witness :
  exists b, FXfamily_eq fam4_2 (obj_of_family fam4_4) = Ok b /\
            FXfamily_ne fam4_2 (obj_of_family fam4_4) = Ok (negb b) /\
            (b = true <-> 4 = 4 /\ Some 2 = Some 4) /\
            (b = true <-> fam4_2 = fam4_4).
Proof.
  apply (family_equality 4 4 (Some 2) (Some 4) fam4_2 fam4_4); reflexivity.
Defined.

(** What the constructor does with unusual bit counts.  Fewer than one
    fractional bit is refused, with the host's error for a negative
    shift count.  Integer bits so negative that the family would have
    less than one bit in all are accepted, and since the threshold
    cannot be computed the family gets the validator that accepts every
    value: it is as unbounded as a family without integer bits. *)
Theorem constructor_edges (n_bits : Z) (n_intbits : option Z) :
  (n_bits < 1 -> FXfamily_init n_bits n_intbits = Raise ValueError) /\
  (1 <= n_bits ->
   exists fam, FXfamily_init n_bits n_intbits = Ok fam /\
     scale fam = 2 ^ n_bits /\ 2 * _roundup fam = scale fam /\
     (forall k, n_intbits = Some k -> n_bits + k < 1 ->
        integer_bits fam = Some k /\
        forall sv, validate fam sv = Ok tt) /\
     (n_intbits = None -> forall sv, validate fam sv = Ok tt)).
Proof.
  split; [apply FXfamily_init_fails |].
  intros Hn. eexists. split; [now apply FXfamily_init_ok |].
  cbn [scale _roundup integer_bits]. split; [reflexivity | split; [| split]].
  - symmetry. now apply pow2_half.
  - intros k -> Hk. split; [reflexivity |].
    intros sv. unfold validate, thresh_of. cbn [thresh].
    destruct (Z.ltb_spec (n_bits + k - 1) 0); [reflexivity | lia].
  - intros -> sv. reflexivity.
Qed.

Lemma constructor_edges_witness :
  FXfamily_init 0 (Some 3) = Raise ValueError /\
  exists fam, FXfamily_init 4 (Some (-5)) = Ok fam /\
              validate fam (10 ^ 30) = Ok tt.
Proof.
  split.
  - apply (constructor_edges 0 (Some 3)). lia.
  - destruct (constructor_edges 4 (Some (-5))) as (_ & H).
    destruct (H ltac:(lia)) as (fam & Hfam & _ & _ & Hneg & _).
    exists fam. split; [exact Hfam |].
    apply (Hneg (-5) eq_refl). lia.
Defined.

(** ** Conversion between families, continued *)

(** Conversion keeps the order of scaled values, in both directions. *)
Theorem convert_monotone (self other : FXfamily) (v w : Z) :
  v <= w -> convert self other v <= convert self other w.
Proof.
  intros Hvw.
  set (d := fraction_bits self - fraction_bits other).
  destruct (Z.lt_trichotomy d 0) as [Hd | [Hd | Hd]].
  - rewrite !(convert_down self other _ d) by (try reflexivity; lia).
    rewrite !Z.shiftr_div_pow2 by lia.
    apply Z.div_le_mono; [apply pow2_pos |]; lia.
  - rewrite !convert_same by (unfold d in Hd; lia). exact Hvw.
  - destruct (Z.eq_dec v w) as [-> | Hne]; [lia |].
    destruct (convert_up_bias self other v d eq_refl Hd) as (b & Hb & ->).
    destruct (convert_up_bias self other w d eq_refl Hd) as (c & Hc & ->).
    nia.
Qed.

Lemma convert_monotone_witness :
  convert fam8 fam4 (-1) <= convert fam8 fam4 0 /\
  convert fam4 fam8 (-1) <= convert fam4 fam8 255.
Proof.
  split.
  - apply (convert_monotone fam8 fam4 (-1) 0). lia.
  - apply (convert_monotone fam4 fam8 (-1) 255). lia.
Defined.

(** Conversion changes the value by less than one unit of the coarser
    family: toward more bits it never lowers it, toward fewer bits it
    never raises it.  A value that is taken down and up again is
    therefore off by less than [2 ^ d]. *)
Theorem convert_error_bounds (fine coarse : FXfamily) (v d : Z) :
  fraction_bits fine - fraction_bits coarse = d -> 0 < d ->
  (v * 2 ^ d <= convert fine coarse v < (v + 1) * 2 ^ d) /\
  (convert coarse fine v * 2 ^ d <= v < (convert coarse fine v + 1) * 2 ^ d) /\
  Z.abs (convert fine coarse (convert coarse fine v) - v) < 2 ^ d.
Proof.
  intros Hd Hpos. pose proof (pow2_pos d ltac:(lia)) as Hp.
  assert (Hup : forall u, u * 2 ^ d <= convert fine coarse u < (u + 1) * 2 ^ d).
  { intros u. destruct (convert_up_bias fine coarse u d Hd Hpos)
      as (b & Hb & ->). lia. }
  assert (Hdown : convert coarse fine v * 2 ^ d <= v
                  < (convert coarse fine v + 1) * 2 ^ d).
  { rewrite (convert_down coarse fine v (- d)) by lia.
    rewrite Z.opp_involutive, Z.shiftr_div_pow2 by lia.
    pose proof (Z.mul_div_le v (2 ^ d) Hp).
    pose proof (Z.mul_succ_div_gt v (2 ^ d) Hp). lia. }
  split; [apply Hup | split; [exact Hdown |]].
  specialize (Hup (convert coarse fine v)). lia.
Qed.

Lemma convert_error_bounds_witness :
  Z.abs (convert fam8 fam4 (convert fam4 fam8 (-37)) - (-37)) < 2 ^ 4.
Proof.
  apply (convert_error_bounds fam8 fam4 (-37) 4); [reflexivity | lia].
Defined.

(** ** Working at augmented precision *)

Lemma augment_loop_lower (nb augbits : Z) : augbits <= augment_loop nb augbits.
Proof.
  destruct (Z.lt_ge_cases 0 nb).
  - rewrite augment_loop_log2 by assumption.
    pose proof (Z.log2_nonneg nb). lia.
  - rewrite augment_loop_nonpos by assumption. lia.
Qed.

(** Whatever the operation count, the augmented family of a constructed
    family exists, has at least four more fractional bits and no limit
    on the integer bits.  Every number of the family can therefore be
    taken into the augmented family, and comes back unchanged: this is
    the way the constants of a family are computed. *)
Theorem augment_cast_roundtrip (n_bits : Z) (n_intbits : option Z)
    (fam : FXfamily) (opcount : option Z) (x : FXnum) :
  FXfamily_init n_bits n_intbits = Ok fam ->
  family x = fam ->
  validate fam (scaledval x) = Ok tt ->
  exists aug y,
    augment fam opcount = Ok aug /\
    fraction_bits fam + 4 <= fraction_bits aug /\
    integer_bits aug = None /\
    FXnum_init (PyFX x) aug None = Ok y /\
    FXnum_init (PyFX y) fam None = Ok x.
Proof.
  intros Hfam Hx Hv.
  destruct (family_facts _ _ _ Hfam) as (Hn & _ & _ & _ & Hfb & _).
  set (nb := match opcount with Some n => n | None => fraction_bits fam end).
  pose proof (augment_loop_lower nb 4) as Hlow.
  assert (Haug : augment fam opcount =
                 Ok (mkFXfamily (fraction_bits fam + augment_loop nb 4) None
                       (2 ^ (fraction_bits fam + augment_loop nb 4))
                       (2 ^ (fraction_bits fam + augment_loop nb 4 - 1))
                       None)).
  { unfold augment. fold nb. rewrite FXfamily_init_ok by lia. reflexivity. }
  set (aug := mkFXfamily _ _ _ _ _) in Haug.
  destruct x as [fx sv]. cbn [family scaledval] in *. subst fx.
  exists aug, (mkFXnum aug (convert aug fam sv)).
  split; [exact Haug | split; [cbn; lia | split; [reflexivity | split]]].
  - reflexivity.
  - unfold FXnum_init.
    rewrite convert_up_down by (cbn; lia).
    now rewrite Hv.
Qed.

Lemma augment_cast_roundtrip_witness :
  exists aug y,
    augment fam4_4 (Some 3) = Ok aug /\
    fraction_bits fam4_4 + 4 <= fraction_bits aug /\
    integer_bits aug = None /\
    FXnum_init (PyFX (mkFXnum fam4_4 (-128))) aug None = Ok y /\
    FXnum_init (PyFX y) fam4_4 None = Ok (mkFXnum fam4_4 (-128)).
Proof.
  apply (augment_cast_roundtrip 4 (Some 4) fam4_4 (Some 3)
           (mkFXnum fam4_4 (-128))); reflexivity.
Defined.

(** ** Two's complement *)

Lemma ceil_div_bounds (a b : Z) :
  0 < b -> a <= (a + b - 1) / b * b < a + b.
Proof.
  intros Hb.
  pose proof (Z.mul_div_le (a + b - 1) b Hb).
  pose proof (Z.mul_succ_div_gt (a + b - 1) b Hb). lia.
Qed.

(** The last steps of [_toTwosComplement], once the digit counts are
    known: a negative pattern is lifted by [2 ^ (intDigits * logBase +
    resolution)], which makes it the residue of the scaled value, and
    the pattern is aligned to whole digits. *)
Lemma twos_pattern (sv fb lb I F : Z) :
  0 <= fb -> 0 <= I * lb -> fb <= F * lb ->
  - 2 ^ (I * lb + fb) <= sv < 2 ^ (I * lb + fb) ->
  (bitPattern <-
     (if sv <? 0
      then (top <- py_shl 1 (I * lb + fb) ;; Ok (sv + top))
      else Ok sv) ;;
   bitPattern <- py_shl bitPattern (F * lb - fb) ;;
   Ok (bitPattern, I, F))
  = Ok (sv mod 2 ^ (I * lb + fb) * 2 ^ (F * lb - fb), I, F).
Proof.
  intros Hfb HI HF Hsv.
  pose proof (pow2_pos (I * lb + fb) ltac:(lia)) as Hp.
  destruct (Z.ltb_spec sv 0).
  - assert (E : sv mod 2 ^ (I * lb + fb) = sv + 2 ^ (I * lb + fb))
      by (symmetry; apply Z.mod_unique with (q := -1); lia).
    rewrite py_shl_nonneg by lia. cbn [bind].
    rewrite py_shl_nonneg by lia. cbn [bind].
    now rewrite Z.mul_1_l, E.
  - cbn [bind]. rewrite py_shl_nonneg by lia. cbn [bind].
    now rewrite Z.mod_small by lia.
Qed.

Lemma twos_pattern_range (sv fb lb I F : Z) :
  0 <= fb -> 0 <= I * lb -> fb <= F * lb ->
  0 <= sv mod 2 ^ (I * lb + fb) * 2 ^ (F * lb - fb) < 2 ^ ((I + F) * lb).
Proof.
  intros Hfb HI HF.
  pose proof (pow2_pos (I * lb + fb) ltac:(lia)) as Hp.
  pose proof (pow2_pos (F * lb - fb) ltac:(lia)) as Hq.
  pose proof (Z.mod_pos_bound sv _ Hp) as Hm.
  replace ((I + F) * lb) with ((I * lb + fb) + (F * lb - fb)) by ring.
  rewrite (Z.pow_add_r 2 (I * lb + fb) (F * lb - fb)) by lia.
  set (P := 2 ^ (I * lb + fb)) in *. set (Q := 2 ^ (F * lb - fb)) in *.
  set (m := sv mod P) in *. split.
  - apply Z.mul_nonneg_nonneg; lia.
  - apply Z.mul_lt_mono_pos_r; lia.
Qed.

(** In a family with a limit on its integer bits the digit counts are
    the bit counts divided by [logBase] and rounded up, and no loop
    runs. *)
Lemma _toTwosComplement_bounded (n_bits ib : Z) (fam : FXfamily)
    (x : FXnum) (lb : Z) (fuel : nat) :
  FXfamily_init n_bits (Some ib) = Ok fam -> 0 <= ib ->
  family x = fam -> validate fam (scaledval x) = Ok tt -> 1 <= lb ->
  let I := (ib + lb - 1) / lb in
  let F := (n_bits + lb - 1) / lb in
  _toTwosComplement fuel x lb =
  Some (Ok (scaledval x mod 2 ^ (I * lb + n_bits) * 2 ^ (F * lb - n_bits),
            I, F)).
Proof.
  intros Hfam Hib Hx Hv Hlb I F.
  destruct (family_facts _ _ _ Hfam) as (Hn & _ & _ & _ & Hfb & Hint & Hth).
  pose proof (ceil_div_bounds ib lb ltac:(lia)) as HI. fold I in HI.
  pose proof (ceil_div_bounds n_bits lb ltac:(lia)) as HF. fold F in HF.
  apply validate_in_range in Hv. unfold in_range in Hv.
  rewrite Hth in Hv. cbn [thresh_of] in Hv.
  destruct (Z.ltb_spec (n_bits + ib - 1) 0); [lia |].
  assert (2 ^ (n_bits + ib - 1) <= 2 ^ (I * lb + n_bits))
    by (apply Z.pow_le_mono_r; lia).
  unfold _toTwosComplement, resolution, finished.
  rewrite Hx, Hfb, Hint. unfold py_floordiv at 1 2.
  destruct (Z.eqb_spec lb 0); [lia |]. cbn [bind_steps].
  fold I F. f_equal. apply twos_pattern; lia.
Qed.

(** The pattern of a number of a family with a limit on its integer
    bits: for every base [2 ^ logBase] it has whole digits on both sides
    of the point, enough of them for the bits of the family, and it is
    the residue of the scaled value modulo [2 ^ (intDigits * logBase +
    fraction_bits)], aligned to the fractional digits; it lies in
    [0, 2 ^ ((intDigits + fracDigits) * logBase)). *)
Theorem twos_complement_pattern (n_bits ib : Z) (fam : FXfamily)
    (x : FXnum) (lb : Z) (fuel : nat) :
  FXfamily_init n_bits (Some ib) = Ok fam -> 0 <= ib ->
  family x = fam -> validate fam (scaledval x) = Ok tt -> 1 <= lb ->
  exists bits I F,
    _toTwosComplement fuel x lb = Some (Ok (bits, I, F)) /\
    ib <= I * lb < ib + lb /\ n_bits <= F * lb < n_bits + lb /\
    bits = scaledval x mod 2 ^ (I * lb + n_bits) * 2 ^ (F * lb - n_bits) /\
    0 <= bits < 2 ^ ((I + F) * lb).
Proof.
  intros Hfam Hib Hx Hv Hlb.
  pose proof (_toTwosComplement_bounded _ _ _ _ _ fuel Hfam Hib Hx Hv Hlb)
    as H. cbv zeta in H.
  destruct (family_facts _ _ _ Hfam) as (Hn & _).
  pose proof (ceil_div_bounds ib lb ltac:(lia)) as HI.
  pose proof (ceil_div_bounds n_bits lb ltac:(lia)) as HF.
  do 3 eexists. split; [exact H |].
  split; [exact HI | split; [exact HF | split; [reflexivity |]]].
  apply twos_pattern_range; lia.
Qed.

Lemma twos_complement_pattern_witness :
  exists bits I F,
    _toTwosComplement 0 (mkFXnum fam4_4 (-37)) 3 = Some (Ok (bits, I, F)) /\
    4 <= I * 3 < 4 + 3 /\ 4 <= F * 3 < 4 + 3 /\
    bits = (-37) mod 2 ^ (I * 3 + 4) * 2 ^ (F * 3 - 4) /\
    0 <= bits < 2 ^ ((I + F) * 3).
Proof.
  apply (twos_complement_pattern 4 4 fam4_4 (mkFXnum fam4_4 (-37)) 3 0);
    [reflexivity | lia | reflexivity | reflexivity | lia].
Defined.

(** In base two the pattern of a number is what [from2c] decodes: the
    pattern has exactly the bits of the family, and decoding it gives
    the number back. *)
Theorem twos_complement_roundtrip (n_bits ib : Z) (fam : FXfamily)
    (x : FXnum) (fuel : nat) :
  FXfamily_init n_bits (Some ib) = Ok fam -> 0 <= ib ->
  family x = fam -> validate fam (scaledval x) = Ok tt ->
  exists bits,
    _toTwosComplement fuel x 1 = Some (Ok (bits, ib, n_bits)) /\
    0 <= bits < 2 ^ (n_bits + ib) /\
    from2c fam bits None = Ok x.
Proof.
  intros Hfam Hib Hx Hv.
  pose proof (_toTwosComplement_bounded _ _ _ _ 1 fuel Hfam Hib Hx Hv
                ltac:(lia)) as H. cbv zeta in H.
  destruct (family_facts _ _ _ Hfam) as (Hn & Hp & Hs & _ & _ & Hint & Hth).
  replace ((ib + 1 - 1) / 1) with ib in H by (rewrite Z.div_1_r; lia).
  replace ((n_bits + 1 - 1) / 1) with n_bits in H
    by (rewrite Z.div_1_r; lia).
  replace (n_bits * 1 - n_bits) with 0 in H by lia.
  replace (ib * 1 + n_bits) with (n_bits + ib) in H by lia.
  change (2 ^ 0) with 1 in H. rewrite Z.mul_1_r in H.
  set (m := 2 ^ (n_bits + ib)) in *.
  assert (Hm : m = 2 * 2 ^ (n_bits + ib - 1))
    by (apply pow2_half; lia).
  pose proof (pow2_pos (n_bits + ib - 1) ltac:(lia)) as Hpos.
  assert (Hv' := Hv). apply validate_in_range in Hv'. unfold in_range in Hv'.
  rewrite Hth in Hv'. cbn [thresh_of] in Hv'.
  destruct (Z.ltb_spec (n_bits + ib - 1) 0); [lia |].
  exists (scaledval x mod m). split; [exact H |].
  pose proof (Z.mod_pos_bound (scaledval x) m ltac:(lia)) as Hb.
  split; [exact Hb |].
  rewrite (from2c_bits fam _ ib None) by (try rewrite Hint; trivial).
  assert (Hsm : scale fam * 2 ^ ib = m).
  { unfold m. rewrite Z.pow_add_r, Hs by lia. f_equal.
    symmetry. now apply pow2_half. }
  rewrite Hsm.
  assert (Hhalf : Z.shiftr m 1 = 2 ^ (n_bits + ib - 1)).
  { rewrite Z.shiftr_div_pow2 by lia. change (2 ^ 1) with 2.
    rewrite Hm, Z.mul_comm. apply Z.div_mul. lia. }
  rewrite Hhalf.
  destruct (Z.ltb_spec (scaledval x mod m) 0); [lia |].
  destruct (Z.geb_spec (scaledval x mod m) m); [lia |]. cbn [orb].
  destruct x as [fx sv]. cbn [family scaledval] in *. subst fx.
  assert (Hdec : (if sv mod m <? 2 ^ (n_bits + ib - 1)
                  then sv mod m else sv mod m - m) = sv).
  { destruct (Z.lt_ge_cases sv 0).
    - assert (sv mod m = sv + m)
        by (symmetry; apply Z.mod_unique with (q := -1); lia).
      destruct (Z.ltb_spec (sv mod m) (2 ^ (n_bits + ib - 1))); lia.
    - rewrite Z.mod_small by lia.
      destruct (Z.ltb_spec sv (2 ^ (n_bits + ib - 1))); lia. }
  rewrite Hdec. unfold _rawbuild. now rewrite Hv.
Qed.

Lemma twos_complement_roundtrip_witness :
  exists bits,
    _toTwosComplement 0 (mkFXnum fam4_4 (-37)) 1 = Some (Ok (bits, 4, 4)) /\
    0 <= bits < 2 ^ (4 + 4) /\
    from2c fam4_4 bits None = Ok (mkFXnum fam4_4 (-37)).
Proof.
  apply (twos_complement_roundtrip 4 4 fam4_4 (mkFXnum fam4_4 (-37)) 0);
    [reflexivity | lia | reflexivity | reflexivity].
Defined.

(** *** The digit count of a family without a limit *)

(** The loop for a non-negative integer part stops at the first digit
    count whose digits hold the integer part. *)
Lemma intDigits_loop_nonneg_spec (intPart lb : Z) (fuel : nat) :
  1 <= lb ->
  forall I0, 0 <= I0 ->
  intPart < 2 ^ ((I0 + Z.of_nat fuel) * lb) ->
  exists I, intDigits_loop_nonneg (S fuel) intPart lb I0 = Some (Ok I) /\
    I0 <= I /\ intPart < 2 ^ (I * lb) /\
    (I0 < I -> 2 ^ ((I - 1) * lb) <= intPart).
Proof.
  intros Hlb. induction fuel as [| f IH]; intros I0 HI0 Hfit.
  - exists I0. cbn [intDigits_loop_nonneg].
    rewrite py_shl_nonneg, Z.mul_1_l by nia.
    replace (I0 + Z.of_nat 0) with I0 in Hfit by lia.
    destruct (Z.geb_spec intPart (2 ^ (I0 * lb))); [lia |].
    repeat split; lia.
  - cbn [intDigits_loop_nonneg].
    rewrite py_shl_nonneg, Z.mul_1_l by nia.
    destruct (Z.geb_spec intPart (2 ^ (I0 * lb))) as [Hge | Hlt].
    + destruct (IH (I0 + 1)) as (I & HI & Hle & Hfits & Hmin); [lia | |].
      * replace (I0 + 1 + Z.of_nat f) with (I0 + Z.of_nat (S f)) by lia.
        exact Hfit.
      * exists I. cbn [intDigits_loop_nonneg] in HI.
        split; [exact HI | split; [lia | split; [exact Hfits |]]].
        intros _. destruct (Z.eq_dec I (I0 + 1)) as [-> | Hne].
        -- now replace (I0 + 1 - 1) with I0 by lia.
        -- apply Hmin. lia.
    + exists I0. repeat split; lia.
Qed.

(** The loop for a negative integer part stops at the first digit count
    whose digits, one bit of them for the sign, hold the integer part. *)
Lemma intDigits_loop_neg_spec (intPart lb : Z) (fuel : nat) :
  1 <= lb ->
  forall I0, 1 <= I0 ->
  - 2 ^ ((I0 + Z.of_nat fuel) * lb - 1) <= intPart ->
  exists I, intDigits_loop_neg (S fuel) intPart lb I0 = Some (Ok I) /\
    I0 <= I /\ - 2 ^ (I * lb - 1) <= intPart /\
    (I0 < I -> intPart < - 2 ^ ((I - 1) * lb - 1)).
Proof.
  intros Hlb. induction fuel as [| f IH]; intros I0 HI0 Hfit.
  - exists I0. cbn [intDigits_loop_neg].
    rewrite py_shl_nonneg, Z.mul_1_l by nia.
    replace (I0 + Z.of_nat 0) with I0 in Hfit by lia.
    destruct (Z.ltb_spec (2 ^ (I0 * lb - 1) + intPart) 0); [lia |].
    repeat split; lia.
  - cbn [intDigits_loop_neg].
    rewrite py_shl_nonneg, Z.mul_1_l by nia.
    destruct (Z.ltb_spec (2 ^ (I0 * lb - 1) + intPart) 0) as [Hlt | Hge].
    + destruct (IH (I0 + 1)) as (I & HI & Hle & Hfits & Hmin); [lia | |].
      * replace (I0 + 1 + Z.of_nat f) with (I0 + Z.of_nat (S f)) by lia.
        exact Hfit.
      * exists I. cbn [intDigits_loop_neg] in HI.
        split; [exact HI | split; [lia | split; [exact Hfits |]]].
        intros _. destruct (Z.eq_dec I (I0 + 1)) as [-> | Hne].
        -- replace (I0 + 1 - 1) with I0 by lia. lia.
        -- apply Hmin. lia.
    + exists I0. repeat split; lia.
Qed.

Lemma pow2_gt_lin (n : Z) : 0 <= n -> n < 2 ^ n.
Proof. intros H. apply Z.pow_gt_lin_r; lia. Qed.

(** In a family without a limit on its integer bits the number of
    integer digits is found by a loop, which ends for every base
    [2 ^ logBase] with [1 <= logBase]: fuel above the magnitude of the
    scaled value is enough.  The count is the least one, from one on,
    whose digits hold the integer part of the number: a non-negative
    integer part has to be below [2 ^ (intDigits * logBase)], with no
    bit left for a sign, and a negative one at least
    [- 2 ^ (intDigits * logBase - 1)].  The pattern is again the residue
    of the scaled value, aligned to whole digits. *)
Theorem twos_complement_autosize (n_bits : Z) (fam : FXfamily) (x : FXnum)
    (lb : Z) (fuel : nat) :
  FXfamily_init n_bits None = Ok fam -> family x = fam -> 1 <= lb ->
  Z.abs (scaledval x) < Z.of_nat fuel ->
  exists bits I F,
    _toTwosComplement fuel x lb = Some (Ok (bits, I, F)) /\
    1 <= I /\ n_bits <= F * lb < n_bits + lb /\
    (0 <= scaledval x ->
       scaledval x / 2 ^ n_bits < 2 ^ (I * lb) /\
       (1 < I -> 2 ^ ((I - 1) * lb) <= scaledval x / 2 ^ n_bits)) /\
    (scaledval x < 0 ->
       - 2 ^ (I * lb - 1) <= scaledval x / 2 ^ n_bits /\
       (1 < I -> scaledval x / 2 ^ n_bits < - 2 ^ ((I - 1) * lb - 1))) /\
    bits = scaledval x mod 2 ^ (I * lb + n_bits) * 2 ^ (F * lb - n_bits) /\
    0 <= bits < 2 ^ ((I + F) * lb).
Proof.
  intros Hfam Hx Hlb Hfuel.
  destruct (family_facts _ _ _ Hfam) as (Hn & _ & _ & _ & Hfb & Hint & _).
  pose proof (ceil_div_bounds n_bits lb ltac:(lia)) as HF.
  set (F := (n_bits + lb - 1) / lb) in *.
  set (sv := scaledval x) in *.
  pose proof (pow2_pos n_bits ltac:(lia)) as Hp.
  pose proof (Z.mul_div_le sv (2 ^ n_bits) Hp) as Hdl.
  pose proof (Z.mul_succ_div_gt sv (2 ^ n_bits) Hp) as Hdu.
  destruct fuel as [| f]; [lia |].
  assert (Hstart : _toTwosComplement (S f) x lb =
    bind_steps
      (if sv / 2 ^ n_bits >=? 0
       then intDigits_loop_nonneg (S f) (sv / 2 ^ n_bits) lb 1
       else intDigits_loop_neg (S f) (sv / 2 ^ n_bits) lb 1)
      (fun I =>
         finished
           (bitPattern <-
              (if sv <? 0
               then (top <- py_shl 1 (I * lb + n_bits) ;; Ok (sv + top))
               else Ok sv) ;;
            bitPattern <- py_shl bitPattern (F * lb - n_bits) ;;
            Ok (bitPattern, I, F)))).
  { unfold _toTwosComplement, resolution, finished.
    rewrite Hx, Hfb, Hint. unfold py_floordiv.
    destruct (Z.eqb_spec lb 0); [lia |]. cbn [bind_steps].
    rewrite py_shr_nonneg by lia. cbn [bind_steps]. reflexivity. }
  rewrite Hstart. clear Hstart.
  assert (Hf : Z.of_nat f < 2 ^ Z.of_nat f) by (apply pow2_gt_lin; lia).
  destruct (Z.lt_ge_cases sv 0) as [Hneg | Hpos].
  - assert (Hip : sv / 2 ^ n_bits < 0) by nia.
    assert (Hlow : sv <= sv / 2 ^ n_bits) by nia.
    destruct (Z.geb_spec (sv / 2 ^ n_bits) 0); [lia |].
    destruct (intDigits_loop_neg_spec (sv / 2 ^ n_bits) lb f Hlb 1)
      as (I & HI & Hle & Hfits & Hmin); [lia | |].
    { assert (2 ^ Z.of_nat f <= 2 ^ ((1 + Z.of_nat f) * lb - 1))
        by (apply Z.pow_le_mono_r; nia).
      lia. }
    rewrite HI. cbn [bind_steps]. unfold finished.
    assert (HIlb : 1 <= I * lb) by nia.
    assert (Hrange : - 2 ^ (I * lb + n_bits) <= sv < 2 ^ (I * lb + n_bits)).
    { pose proof (pow2_pos (I * lb - 1) ltac:(lia)).
      replace (I * lb + n_bits) with (I * lb - 1 + 1 + n_bits) by lia.
      rewrite !Z.pow_add_r by lia. change (2 ^ 1) with 2. nia. }
    rewrite twos_pattern by lia.
    do 3 eexists. split; [reflexivity |].
    split; [lia | split; [lia | split; [lia | split]]].
    + intros _. split; [exact Hfits | exact Hmin].
    + split; [reflexivity | apply twos_pattern_range; lia].
  - assert (Hip : 0 <= sv / 2 ^ n_bits) by (apply Z.div_pos; lia).
    assert (Hup : sv / 2 ^ n_bits <= sv)
      by (apply Z.div_le_upper_bound; nia).
    destruct (Z.geb_spec (sv / 2 ^ n_bits) 0); [| lia].
    destruct (intDigits_loop_nonneg_spec (sv / 2 ^ n_bits) lb f Hlb 1)
      as (I & HI & Hle & Hfits & Hmin); [lia | |].
    { assert (2 ^ Z.of_nat f <= 2 ^ ((1 + Z.of_nat f) * lb))
        by (apply Z.pow_le_mono_r; nia).
      lia. }
    rewrite HI. cbn [bind_steps]. unfold finished.
    assert (HIlb : 1 <= I * lb) by nia.
    assert (Hrange : - 2 ^ (I * lb + n_bits) <= sv < 2 ^ (I * lb + n_bits)).
    { pose proof (pow2_pos (I * lb) ltac:(lia)).
      rewrite Z.pow_add_r by lia. nia. }
    rewrite twos_pattern by lia.
    do 3 eexists. split; [reflexivity |].
    split; [lia | split; [lia | split; [| split; [lia | split]]]].
    + intros _. split; [exact Hfits | exact Hmin].
    + reflexivity.
    + apply twos_pattern_range; lia.
Qed.

Lemma twos_complement_autosize_witness :
  exists bits I F,
    _toTwosComplement 40 (mkFXnum fam4 (-37)) 1 = Some (Ok (bits, I, F)) /\
    1 <= I /\ 0 <= bits < 2 ^ ((I + F) * 1).
Proof.
  destruct (twos_complement_autosize 4 fam4 (mkFXnum fam4 (-37)) 1 40
              eq_refl eq_refl ltac:(lia) ltac:(cbn; lia))
    as (bits & I & F & H & HI & _ & _ & _ & _ & Hb).
  exists bits, I, F. split; [exact H | split; [exact HI | exact Hb]].
Defined.

(** ** Decimal strings *)

Lemma string_app_assoc (a b c : string) :
  ((a ++ b) ++ c = a ++ (b ++ c))%string.
Proof.
  induction a as [| ch a IH]; cbn; [reflexivity | now rewrite IH].
Qed.

Lemma string_app_empty_r (a : string) : (a ++ "" = a)%string.
Proof.
  induction a as [| ch a IH]; cbn; [reflexivity | now rewrite IH].
Qed.






(** The example of the module's documentation, printed with the 19
    digits that the module estimates for 64 fractional bits. *)
Example toDecimalString_doctest :
  (fam <- _defaultFamily ;;
   x <- FXnum_init (PyInt 21) fam None ;;
   q <- FXnum_truediv x (PyInt 10) ;;
   toDecimalString q 19 false) = Ok "2.0999999999999999999"%string.
Proof. reflexivity. Qed.

(** ** Integer powers *)

Lemma land_1_even (p : Z) : (Z.land p 1 =? 0) = Z.even p.
Proof.
  change 1 with (Z.ones 1). rewrite Z.land_ones by lia.
  change (2 ^ 1) with 2. rewrite Zmod_even.
  destruct (Z.even p); reflexivity.
Qed.

(** In a family without a limit, the product of two integers is
    exact. *)
Lemma FXnum_mul_integers (n_bits : Z) (fam : FXfamily) (r t : Z) :
  FXfamily_init n_bits None = Ok fam ->
  FXnum_mul (mkFXnum fam (r * scale fam)) (PyFX (mkFXnum fam (t * scale fam)))
  = Ok (mkFXnum fam (r * t * scale fam)).
Proof.
  intros Hfam.
  destruct (family_facts _ _ _ Hfam) as (Hn & Hp & Hs & Hr & _ & _ & Hth).
  unfold FXnum_mul. rewrite _CastOrFail_same by reflexivity.
  cbn [bind family scaledval]. rewrite Hr, Hs. unfold py_floordiv.
  set (h := 2 ^ (n_bits - 1)) in *.
  destruct (Z.eqb_spec (2 * h) 0); [lia |]. cbn [bind].
  replace (r * (2 * h) * (t * (2 * h)) + h)
    with (r * t * (2 * h) * (2 * h) + h) by ring.
  rewrite Z.div_add_l, (Z.div_small h), Z.add_0_r by lia.
  apply _rawbuild_Ok. unfold in_range. now rewrite Hth.
Qed.

Lemma intpower_loop_integers (n_bits : Z) (fam : FXfamily) :
  FXfamily_init n_bits None = Ok fam ->
  forall (f : nat) (r t pwr : Z),
  0 <= pwr < 2 ^ Z.of_nat (S f) ->
  intpower_loop (S f) (mkFXnum fam (r * scale fam))
    (mkFXnum fam (t * scale fam)) pwr
  = Some (Ok (mkFXnum fam (r * t ^ pwr * scale fam))).
Proof.
  intros Hfam.
  assert (Hstep : forall (f : nat) (r t pwr : Z),
    0 <= pwr ->
    (pwr / 2 <> 0 ->
       intpower_loop f (mkFXnum fam (r * t ^ (pwr mod 2) * scale fam))
         (mkFXnum fam (t * t * scale fam)) (pwr / 2)
       = Some (Ok (mkFXnum fam (r * t ^ pwr * scale fam)))) ->
    intpower_loop (S f) (mkFXnum fam (r * scale fam))
      (mkFXnum fam (t * scale fam)) pwr
    = Some (Ok (mkFXnum fam (r * t ^ pwr * scale fam)))).
  { intros f r t pwr Hpwr Hrec. cbn [intpower_loop]. rewrite land_1_even.
    rewrite Z.shiftr_div_pow2 by lia. change (2 ^ 1) with 2.
    pose proof (Z.div_mod pwr 2 ltac:(lia)) as Hdm.
    pose proof (Z.mod_pos_bound pwr 2 ltac:(lia)) as Hmb.
    rewrite Zmod_even in Hdm, Hrec.
    destruct (Z.even pwr) eqn:Hev; cbn [negb finished bind_steps].
    - rewrite Z.pow_0_r, Z.mul_1_r in Hrec.
      destruct (Z.eqb_spec (pwr / 2) 0) as [Hz | Hnz].
      + assert (pwr = 0) by lia. subst pwr.
        now rewrite Z.pow_0_r, Z.mul_1_r.
      + rewrite (FXnum_mul_integers _ _ _ _ Hfam). cbn [bind_steps].
        now apply Hrec.
    - rewrite Z.pow_1_r in Hrec.
      rewrite (FXnum_mul_integers _ _ _ _ Hfam). cbn [bind_steps].
      destruct (Z.eqb_spec (pwr / 2) 0) as [Hz | Hnz].
      + assert (pwr = 1) by lia. subst pwr. now rewrite Z.pow_1_r.
      + rewrite (FXnum_mul_integers _ _ _ _ Hfam). cbn [bind_steps].
        now apply Hrec. }
  induction f as [| f IH]; intros r t pwr Hpwr; apply Hstep; try lia.
  - intros Hnz. change (2 ^ Z.of_nat 1) with 2 in Hpwr.
    assert (pwr / 2 = 0) by (apply Z.div_small; lia). contradiction.
  - intros Hnz.
    rewrite Nat2Z.inj_succ, Z.pow_succ_r in Hpwr by lia.
    pose proof (Z.div_mod pwr 2 ltac:(lia)) as Hdm.
    pose proof (Z.mod_pos_bound pwr 2 ltac:(lia)) as Hmb.
    rewrite IH by lia. do 3 f_equal.
    rewrite Hdm at 3.
    rewrite Z.pow_add_r, Z.pow_mul_r, Z.pow_2_r by lia. ring.
Qed.

(** Integer powers of integers.  In a family without a limit on its
    integer bits, the repeated squaring ends for every power whose
    binary digits the fuel covers, and a non-negative power of the
    number made from the integer [n] is exactly the number made from
    [n ^ pwr].  A negative power is one divided by the positive power,
    with the rounding of the division; for the number zero that
    division is the host's division fault. *)
Theorem intpower_integers (n_bits : Z) (fam : FXfamily) (n pwr : Z)
    (fuel : nat) :
  FXfamily_init n_bits None = Ok fam ->
  Z.log2 (Z.abs pwr) < Z.of_nat fuel ->
  exists x, FXnum_init (PyInt n) fam None = Ok x /\
    (0 <= pwr ->
       intpower fuel x pwr = Some (FXnum_init (PyInt (n ^ pwr)) fam None) /\
       intpower fuel x pwr = Some (Ok (mkFXnum fam (n ^ pwr * 2 ^ n_bits)))) /\
    (pwr < 0 ->
       intpower fuel x pwr =
       Some (one <- FXnum_init (PyInt 1) fam None ;;
             FXnum_truediv one (PyFX (mkFXnum fam (n ^ (- pwr) * 2 ^ n_bits)))) /\
       (n = 0 -> intpower fuel x pwr = Some (Raise ZeroDivisionError))).
Proof.
  intros Hfam Hfuel.
  destruct (family_facts _ _ _ Hfam) as (Hn & Hp & Hs & Hr & _ & _ & Hth).
  assert (Hsc : scale fam = 2 ^ n_bits)
    by (rewrite Hs; symmetry; now apply pow2_half).
  assert (Hinit : forall k, FXnum_init (PyInt k) fam None
                            = Ok (mkFXnum fam (k * scale fam))).
  { intros k. unfold FXnum_init, validate. now rewrite Hth. }
  exists (mkFXnum fam (n * scale fam)). split; [apply Hinit |].
  destruct fuel as [| f]; [pose proof (Z.log2_nonneg (Z.abs pwr)); lia |].
  assert (Hfuel' : Z.abs pwr < 2 ^ Z.of_nat (S f)).
  { destruct (Z.eq_dec pwr 0) as [-> | Hnz]; [apply pow2_pos; lia |].
    apply Z.log2_lt_pow2; lia. }
  clear Hfuel. rename Hfuel' into Hfuel.
  split.
  - intros Hpos. rewrite Hinit, <- Hsc.
    assert (Hgoal : intpower (S f) (mkFXnum fam (n * scale fam)) pwr
                    = Some (Ok (mkFXnum fam (n ^ pwr * scale fam)))).
    { unfold intpower. destruct (Z.ltb_spec pwr 0); [lia |].
      cbn [family]. unfold unity. rewrite Hinit. cbn [finished bind_steps].
      rewrite (intpower_loop_integers _ _ Hfam) by lia.
      cbn [bind_steps]. now rewrite Z.mul_1_l. }
    split; exact Hgoal.
  - intros Hneg.
    assert (Hgoal : intpower (S f) (mkFXnum fam (n * scale fam)) pwr
      = Some (one <- FXnum_init (PyInt 1) fam None ;;
              FXnum_truediv one
                (PyFX (mkFXnum fam (n ^ (- pwr) * scale fam))))).
    { unfold intpower. destruct (Z.ltb_spec pwr 0); [| lia].
      cbn [family]. unfold unity. rewrite Hinit. cbn [finished bind_steps].
      rewrite (intpower_loop_integers _ _ Hfam) by lia.
      cbn [bind_steps]. unfold finished.
      replace (pwr * -1) with (- pwr) by lia.
      now rewrite !Z.mul_1_l. }
    rewrite <- Hsc. split; [exact Hgoal |].
    intros ->. rewrite Hgoal, Hinit. cbn [bind].
    unfold FXnum_truediv. rewrite _CastOrFail_same by reflexivity.
    cbn [bind scaledval]. rewrite Z.pow_0_l by lia. reflexivity.
Qed.

Lemma intpower_integers_witness :
  exists x, FXnum_init (PyInt (-3)) fam4 None = Ok x /\
            intpower 3 x 5 = Some (Ok (mkFXnum fam4 ((-3) ^ 5 * 2 ^ 4))).
Proof.
  destruct (intpower_integers 4 fam4 (-3) 5 3 eq_refl ltac:(cbn; lia))
    as (x & Hx & Hpos & _).
  exists x. split; [exact Hx |]. apply Hpos. lia.
Defined.

(** The powers zero and one, in any family.  [intpower] starts from the
    family's unity: where the family has one, the power zero of every
    number is the unity, that of zero included, and the power one of a
    number is the number.  A family with fewer than two integer bits has
    no unity, and there every power of every number ends in the overflow
    error. *)
Theorem intpower_edges (n_bits : Z) (n_intbits : option Z) (fam : FXfamily)
    (x : FXnum) (fuel : nat) :
  FXfamily_init n_bits n_intbits = Ok fam ->
  family x = fam -> validate fam (scaledval x) = Ok tt ->
  (validate fam (scale fam) = Ok tt ->
     intpower (S fuel) x 0 = Some (Ok (mkFXnum fam (scale fam))) /\
     intpower (S fuel) x 1 = Some (Ok x)) /\
  (validate fam (scale fam) <> Ok tt ->
     forall pwr, intpower fuel x pwr = Some (Raise FXoverflowError)).
Proof.
  intros Hfam Hx Hv. destruct x as [fx sv]. cbn [family scaledval] in *.
  subst fx.
  destruct (family_facts _ _ _ Hfam) as (Hn & Hp & Hs & Hr & _).
  split.
  - intros Hu.
    assert (Hunity : unity fam = Ok (mkFXnum fam (scale fam)))
      by (unfold unity, FXnum_init; rewrite Z.mul_1_l, Hu; reflexivity).
    unfold intpower. cbn [Z.ltb Z.compare family]. rewrite Hunity.
    cbn [finished bind_steps intpower_loop]. split; [reflexivity |].
    cbn [Z.land Pos.land Z.eqb negb Z.of_N].
    assert (Hmul : FXnum_mul (mkFXnum fam (scale fam)) (PyFX (mkFXnum fam sv))
                   = Ok (mkFXnum fam sv)).
    { unfold FXnum_mul. rewrite _CastOrFail_same by reflexivity.
      cbn [bind family scaledval]. rewrite Hr, Hs. unfold py_floordiv.
      destruct (Z.eqb_spec (2 * 2 ^ (n_bits - 1)) 0); [lia |].
      cbn [bind]. rewrite (Z.mul_comm _ sv), Z.div_add_l by lia.
      rewrite (Z.div_small (2 ^ (n_bits - 1))), Z.add_0_r by lia.
      unfold _rawbuild. now rewrite Hv. }
    rewrite Hmul. reflexivity.
  - intros Hu pwr.
    assert (Hunity : unity fam = Raise FXoverflowError).
    { unfold unity, FXnum_init. rewrite Z.mul_1_l.
      destruct (validate_total fam (scale fam)) as [H | H];
        [contradiction | now rewrite H]. }
    unfold intpower. cbn [family].
    destruct (pwr <? 0); rewrite Hunity; reflexivity.
Qed.

Lemma intpower_edges_witness :
  intpower 1 (mkFXnum fam4_4 (-37)) 1 = Some (Ok (mkFXnum fam4_4 (-37))) /\
  intpower 5 (mkFXnum fam4_1 3) 2 = Some (Raise FXoverflowError).
Proof.
  split.
  - destruct (intpower_edges 4 (Some 4) fam4_4 (mkFXnum fam4_4 (-37)) 0
                eq_refl eq_refl eq_refl) as (H & _).
    apply H. reflexivity.
  - destruct (intpower_edges 4 (Some 1) fam4_1 (mkFXnum fam4_1 3) 5
                eq_refl eq_refl eq_refl) as (_ & H).
    apply H. discriminate.
Defined.

(** ** Strings in base 2, 4, 8 and 16 *)

Lemma string_length_app (a b : string) :
  String.length (a ++ b) = (String.length a + String.length b)%nat.
Proof.
  induction a as [| ch a IH]; cbn; [reflexivity | now rewrite IH].
Qed.

Lemma substring_prefix (a b : string) :
  substring 0 (String.length a) (a ++ b) = a.
Proof.
  induction a as [| ch a IH]; cbn.
  - destruct b; reflexivity.
  - now rewrite IH.
Qed.

Lemma substring_suffix (a b : string) :
  substring (String.length a) (String.length b) (a ++ b) = b.
Proof.
  induction a as [| ch a IH]; cbn.
  - rewrite <- (string_app_empty_r b) at 2. apply substring_prefix.
  - exact IH.
Qed.

(** Cutting a string at [k] characters from its end, for a positive
    [k] that is the length of the second part. *)
Lemma py_slice_split (a b : string) (k : Z) :
  1 <= k -> Z.of_nat (String.length b) = k ->
  py_slice (a ++ b) None (Some (- k)) = a /\
  py_slice (a ++ b) (Some (- k)) None = b.
Proof.
  intros Hk Hb. unfold py_slice, py_index.
  rewrite string_length_app, Nat2Z.inj_add.
  destruct (Z.ltb_spec (- k) 0); [| lia].
  replace (Z.max (Z.of_nat (String.length a) + Z.of_nat (String.length b)
                  + - k) 0) with (Z.of_nat (String.length a)) by lia.
  split.
  - rewrite Z.sub_0_r, Nat2Z.id. apply substring_prefix.
  - replace (Z.of_nat (String.length a) + Z.of_nat (String.length b)
             - Z.of_nat (String.length a))
      with (Z.of_nat (String.length b)) by lia.
    rewrite !Nat2Z.id. apply substring_suffix.
Qed.

Lemma concat_empty_cons (x : string) (xs : list string) :
  String.concat "" (x :: xs) = (x ++ String.concat "" xs)%string.
Proof.
  destruct xs; cbn; [now rewrite string_app_empty_r | reflexivity].
Qed.

Lemma hex_string_app (l1 l2 : list Z) :
  hex_string (l1 ++ l2) = (hex_string l1 ++ hex_string l2)%string.
Proof.
  unfold hex_string. induction l1 as [| d l1 IH].
  - reflexivity.
  - cbn [map app]. rewrite !concat_empty_cons, IH.
    now rewrite string_app_assoc.
Qed.

Lemma format_x_length (d : Z) :
  0 <= d < 16 -> String.length (format_x d) = 1%nat.
Proof.
  intros Hd. rewrite <- (Z2Nat.id d) by lia.
  assert (Hk : (Z.to_nat d < 16)%nat) by lia.
  revert Hk. generalize (Z.to_nat d). intros k Hk.
  do 16 (destruct k as [| k]; [reflexivity |]). lia.
Qed.

Lemma hex_string_length (ds : list Z) :
  Forall (fun d => 0 <= d < 16) ds ->
  String.length (hex_string ds) = length ds.
Proof.
  induction 1 as [| d ds Hd Hds IH]; [reflexivity |].
  unfold hex_string in *. cbn [map length].
  rewrite concat_empty_cons, string_length_app, IH.
  now rewrite format_x_length.
Qed.

Lemma base_digits_length (lb : Z) (n : nat) (v : Z) :
  length (base_digits lb n v) = n.
Proof.
  revert v. induction n as [| n IH]; intros v; cbn; [reflexivity |].
  rewrite length_app, IH. cbn. lia.
Qed.

Lemma base_digits_range (lb : Z) (n : nat) (v : Z) :
  0 <= lb -> Forall (fun d => 0 <= d < 2 ^ lb) (base_digits lb n v).
Proof.
  intros Hlb. revert v. induction n as [| n IH]; intros v; cbn.
  - constructor.
  - apply Forall_app. split; [apply IH |].
    constructor; [| constructor].
    replace (2 ^ lb - 1) with (Z.ones lb)
      by (rewrite Z.ones_equiv; lia).
    rewrite Z.land_ones by assumption.
    apply Z.mod_pos_bound. now apply pow2_pos.
Qed.

Lemma base_digits_app (lb : Z) (a b : nat) (v : Z) :
  0 <= lb ->
  base_digits lb (a + b) v =
  (base_digits lb a (Z.shiftr v (Z.of_nat b * lb)) ++ base_digits lb b v)%list.
Proof.
  intros Hlb. revert v. induction b as [| b IH]; intros v.
  - rewrite Nat.add_0_r. cbn [Z.of_nat Z.mul base_digits].
    now rewrite Z.shiftr_0_r, app_nil_r.
  - rewrite Nat.add_succ_r. cbn [base_digits].
    rewrite IH, Z.shiftr_shiftr by nia.
    rewrite <- app_assoc. do 3 f_equal. lia.
Qed.

Lemma base_value_snoc (lb : Z) (ds : list Z) (d : Z) :
  0 <= lb ->
  base_value lb (ds ++ d :: nil) = base_value lb ds * 2 ^ lb + d.
Proof.
  intros Hlb. induction ds as [| e ds IH]; cbn [app base_value length].
  - cbn [Z.of_nat]. rewrite Z.mul_0_r. change (2 ^ 0) with 1. lia.
  - rewrite IH, length_app. cbn [length].
    replace (lb * Z.of_nat (length ds + 1))
      with (lb * Z.of_nat (length ds) + lb) by lia.
    rewrite Z.pow_add_r by nia. ring.
Qed.

Lemma base_value_digits (lb : Z) (n : nat) (v : Z) :
  0 <= lb ->
  base_value lb (base_digits lb n v) = v mod 2 ^ (lb * Z.of_nat n).
Proof.
  intros Hlb. revert v. induction n as [| n IH]; intros v.
  - cbn. rewrite Z.mul_0_r. change (2 ^ 0) with 1. now rewrite Z.mod_1_r.
  - cbn [base_digits]. rewrite base_value_snoc, IH by assumption.
    replace (2 ^ lb - 1) with (Z.ones lb) by (rewrite Z.ones_equiv; lia).
    rewrite Z.land_ones, Z.shiftr_div_pow2 by assumption.
    replace (lb * Z.of_nat (S n)) with (lb + lb * Z.of_nat n) by lia.
    rewrite Z.pow_add_r by nia.
    pose proof (pow2_pos lb Hlb).
    pose proof (pow2_pos (lb * Z.of_nat n) ltac:(nia)).
    rewrite Z.rem_mul_r by lia. ring.
Qed.

Lemma binary_digits_loop_spec (lb : Z) (n : nat) :
  0 <= lb ->
  forall (digits : list string) (bits : Z),
  binary_digits_loop n lb (2 ^ lb - 1) digits bits =
  Ok (digits ++ rev (map format_x (base_digits lb n bits)))%list.
Proof.
  intros Hlb. induction n as [| n IH]; intros digits bits.
  - cbn. now rewrite app_nil_r.
  - cbn [binary_digits_loop base_digits].
    unfold py_shr. destruct (Z.ltb_spec lb 0); [lia |]. cbn [bind].
    rewrite IH, map_app, rev_app_distr. cbn [map rev app].
    now rewrite <- app_assoc.
Qed.

(** The string of a number in base [2 ^ logBase] shows the pattern that
    [_toTwosComplement] gives, and loses nothing of it: the string is
    [intDigits] digits, a point and [fracDigits] digits, each digit
    written by one character, and the digits are those of the pattern in
    that base, the most significant first. *)
Theorem toBinaryString_digits (x : FXnum) (lb : Z) (fuel : nat)
    (bits I F : Z) :
  1 <= lb <= 4 ->
  _toTwosComplement fuel x lb = Some (Ok (bits, I, F)) ->
  0 <= I -> 1 <= F ->
  let ints := base_digits lb (Z.to_nat I) (Z.shiftr bits (F * lb)) in
  let fracs := base_digits lb (Z.to_nat F) bits in
  toBinaryString fuel x lb true =
    Some (Ok (hex_string ints ++ "." ++ hex_string fracs)%string) /\
  Z.of_nat (String.length (hex_string ints)) = I /\
  Z.of_nat (String.length (hex_string fracs)) = F /\
  Forall (fun d => 0 <= d < 2 ^ lb) (ints ++ fracs) /\
  base_value lb (ints ++ fracs) = bits mod 2 ^ (lb * (I + F)).
Proof.
  intros Hlb Hpat HI HF ints fracs.
  assert (H16 : 2 ^ lb <= 16)
    by (change 16 with (2 ^ 4); apply Z.pow_le_mono_r; lia).
  assert (Hall : Forall (fun d => 0 <= d < 2 ^ lb) (ints ++ fracs))
    by (apply Forall_app; split; apply base_digits_range; lia).
  assert (Hsmall : forall l, Forall (fun d => 0 <= d < 2 ^ lb) l ->
                             Forall (fun d => 0 <= d < 16) l).
  { intros l Hl. eapply Forall_impl; [| exact Hl]. cbv beta. intros; lia. }
  apply Forall_app in Hall as [Hints Hfracs].
  assert (Hli : Z.of_nat (String.length (hex_string ints)) = I).
  { rewrite hex_string_length by auto.
    unfold ints. rewrite base_digits_length. lia. }
  assert (Hlf : Z.of_nat (String.length (hex_string fracs)) = F).
  { rewrite hex_string_length by auto.
    unfold fracs. rewrite base_digits_length. lia. }
  assert (Hjoin : base_digits lb (Z.to_nat (I + F)) bits = (ints ++ fracs)%list).
  { rewrite Z2Nat.inj_add by lia. rewrite base_digits_app by lia.
    unfold ints, fracs. now rewrite Z2Nat.id by lia. }
  split; [| split; [exact Hli | split; [exact Hlf | split]]].
  - unfold toBinaryString.
    destruct (Z.gtb_spec lb 4); [lia |].
    destruct (Z.ltb_spec lb 1); [lia |]. cbn [orb negb].
    rewrite andb_false_r. cbn [finished bind_steps]. rewrite Hpat.
    cbn [bind_steps]. unfold finished.
    rewrite py_shl_nonneg, Z.mul_1_l by lia. cbn [bind].
    rewrite binary_digits_loop_spec by lia. cbn [bind app].
    rewrite rev_involutive, Hjoin.
    fold (hex_string (ints ++ fracs)). rewrite hex_string_app.
    destruct (py_slice_split (hex_string ints) (hex_string fracs) F HF Hlf)
      as [-> ->].
    reflexivity.
  - apply Forall_app. split; assumption.
  - rewrite <- Hjoin, base_value_digits by lia.
    now rewrite Z2Nat.id by lia.
Qed.

Lemma toBinaryString_digits_witness :
  toBinaryString 0 (mkFXnum fam4_4 (-37)) 1 true
    = Some (Ok "1101.1011"%string) /\
  toBinaryString 0 (mkFXnum fam4_4 (-37)) 4 true = Some (Ok "d.b"%string).
Proof.
  split.
  - destruct (toBinaryString_digits (mkFXnum fam4_4 (-37)) 1 0 219 4 4
                ltac:(lia) eq_refl ltac:(lia) ltac:(lia)) as (H & _).
    exact H.
  - destruct (toBinaryString_digits (mkFXnum fam4_4 (-37)) 4 0 219 1 1
                ltac:(lia) eq_refl ltac:(lia) ltac:(lia)) as (H & _).
    exact H.
Defined.

(** The guards of [toBinaryString].  A base other than 2, 4, 8 or 16 is
    refused with ValueError before anything is computed.  Without two's
    complement a non-negative number is printed as with it, and a
    negative number as a minus sign before the string of its negation,
    so the lowest number of a family with a limit, which has no
    negation, ends in the overflow error. *)
Theorem toBinaryString_guards (x : FXnum) (lb : Z) (fuel : nat) :
  (lb < 1 \/ 4 < lb ->
     forall twosComp,
     toBinaryString fuel x lb twosComp = Some (Raise ValueError)) /\
  (1 <= lb <= 4 ->
     (0 <= scaledval x ->
        toBinaryString fuel x lb false = toBinaryString fuel x lb true) /\
     (scaledval x < 0 ->
        (forall e, FXnum_neg x = Raise e ->
           toBinaryString fuel x lb false = Some (Raise e)) /\
        (forall y s, FXnum_neg x = Ok y ->
           toBinaryString fuel y lb true = Some (Ok s) ->
           toBinaryString fuel x lb false = Some (Ok ("-" ++ s)%string)))).
Proof.
  split.
  - intros Hlb twosComp. unfold toBinaryString.
    destruct (Z.gtb_spec lb 4), (Z.ltb_spec lb 1); cbn [orb];
      try reflexivity; lia.
  - intros Hlb. unfold toBinaryString.
    destruct (Z.gtb_spec lb 4); [lia |].
    destruct (Z.ltb_spec lb 1); [lia |]. cbn [orb negb].
    split.
    + intros Hpos. destruct (Z.ltb_spec (scaledval x) 0); [lia |].
      reflexivity.
    + intros Hneg. destruct (Z.ltb_spec (scaledval x) 0); [| lia].
      cbn [andb]. split.
      * intros e ->. reflexivity.
      * intros y s Hy Hs. rewrite Hy. cbn [bind finished bind_steps].
        apply _rawbuild_inv in Hy as [-> _].
        cbn [scaledval] in Hs. rewrite andb_false_r in Hs.
        cbn [finished bind_steps] in Hs.
        destruct (_toTwosComplement fuel _ lb) as [[[[bits I] F] | e] |];
          cbn [bind_steps] in *; try discriminate.
        unfold finished in *.
        destruct (mask <- (top <- py_shl 1 lb ;; Ok (top - 1)) ;;
                  binary_digits_loop (Z.to_nat (I + F)) lb mask nil bits)
          as [ds | e] eqn:Hds.
        -- destruct (py_shl 1 lb) as [top | e]; cbn [bind] in *;
             [| discriminate].
           rewrite Hds in *. cbn [bind] in *.
           injection Hs as <-. reflexivity.
        -- destruct (py_shl 1 lb) as [top | e']; cbn [bind] in *;
             [rewrite Hds in Hs |]; discriminate.
Qed.

Lemma toBinaryString_guards_witness :
  toBinaryString 0 (mkFXnum fam4_4 (-37)) 5 true = Some (Raise ValueError) /\
  toBinaryString 0 (mkFXnum fam4_4 (-128)) 1 false
    = Some (Raise FXoverflowError).
Proof.
  destruct (toBinaryString_guards (mkFXnum fam4_4 (-37)) 5 0) as (Hv & _).
  destruct (toBinaryString_guards (mkFXnum fam4_4 (-128)) 1 0) as (_ & Hs).
  split.
  - apply Hv. right. lia.
  - destruct (Hs ltac:(lia)) as (_ & Hneg).
    destruct (Hneg ltac:(cbn; lia)) as (He & _).
    apply He. reflexivity.
Defined.
